(** * Spherical-spline interpolation of bad channels
    (mne/channels/interpolation.py)

    A shallow embedding of the interpolation core of mne-python and the
    properties of it that the specification states.  Numeric arrays are
    lists of rows over an abstract scalar type: the structural results hold
    for whatever arithmetic the scalars carry, and the kernel series is
    studied over the real numbers. *)

From Stdlib Require Import ZArith Lia.
From Stdlib Require Reals Lra.
From stdpp Require Import base option list strings gmap pretty.

Set Default Proof Using "Type".

(** ** Scalars *)

(** The arithmetic used by matrix products. *)
Class Scalar (T : Type) := {
  fzero : T;
  fadd : T → T → T;
  fmul : T → T → T
}.

(** The further operations of the kernel, the builder and the sphere check.
    [fof_nat] embeds a Python integer, [fpow x m] is [x ** m] for an integer
    exponent, [fpi] is [np.pi], [f0_1] and [f1e_5] are the literals [0.1] and
    [1e-5], and [fgt] is the comparison [>]. *)
Class FloatOps (T : Type) `{Scalar T} := {
  fsub : T → T → T;
  fdiv : T → T → T;
  fsqrt : T → T;
  fabs : T → T;
  fgt : T → T → bool;
  fof_nat : nat → T;
  fpow : T → Z → T;
  fpi : T;
  f0_1 : T;
  f1e_5 : T
}.

(** ** Exceptions and results *)

(** [ShapeMismatch] is the [ValueError] numpy raises on operands whose
    shapes do not fit; [InvalidReference] answers a reference to no array,
    which the store of the model allows and Python does not. *)
Inductive exn :=
| IndexError
| ShapeMismatch
| ValueError (msg : string)
| InvalidReference.

Definition res (A : Type) : Type := exn + A.

Definition raise {A} (e : exn) : res A := inl e.

#[global] Instance res_ret : MRet res := λ A x, inr x.
#[global] Instance res_bind : MBind res := λ A B f m,
  match m with
  | inl e => inl e
  | inr x => f x
  end.

(** ** numpy arrays *)

(** A two-dimensional array: its rows, and the number of columns (which the
    rows alone do not tell when there is none). *)
Record ndarray2 (T : Type) := Arr2 { ncols : nat; rows : list (list T) }.
Arguments Arr2 {T} _ _.
Arguments ncols {T} _.
Arguments rows {T} _.

(** A three-dimensional array trials x channels x samples. *)
Record ndarray3 (T : Type) :=
  Arr3 { nchan3 : nat; nsamp3 : nat; trials : list (list (list T)) }.
Arguments Arr3 {T} _ _ _.
Arguments nchan3 {T} _.
Arguments nsamp3 {T} _.
Arguments trials {T} _.

Section Arrays.
Context {T : Type} `{Scalar T}.

Definition nrows (a : ndarray2 T) : nat := length (rows a).

Definition wf2 (a : ndarray2 T) : Prop :=
  Forall (λ r, length r = ncols a) (rows a).

Definition wf3 (e : ndarray3 T) : Prop :=
  Forall (λ t, length t = nchan3 e ∧ Forall (λ r, length r = nsamp3 e) t)
         (trials e).

(** [rs[idx]] for an integer index array whose entries are in range. *)
Definition gather (idx : list nat) (rs : list (list T)) : list (list T) :=
  (λ i, default [] (rs !! i)) <$> idx.

(** [rs[idx] = vs]: the rows are written one after the other, so that the
    last write to an index wins. *)
Definition scatter (idx : list nat) (vs rs : list (list T)) : list (list T) :=
  foldl (λ acc p, <[p.1 := p.2]> acc) rs (zip idx vs).

Definition vdot (u v : list T) : T := foldl fadd fzero (zip_with fmul u v).

Definition column (j : nat) (rs : list (list T)) : list T :=
  (λ r, default fzero (r !! j)) <$> rs.

(** The rows of [m . x], where [x] has [nc] columns. *)
Definition matmul_rows (nc : nat) (m x : list (list T)) : list (list T) :=
  (λ u, (λ j, vdot u (column j x)) <$> seq 0 nc) <$> m.

(** Broadcasting of a value of [n] rows to [k] rows: when the shapes
    differ the value has a single row, which is repeated. *)
Definition broadcast_rows (k n : nat) (vs : list (list T)) : list (list T) :=
  if decide (n = k) then vs else replicate k (default [] (head vs)).

(** [a[idx]] *)
Definition take_rows (idx : list nat) (a : ndarray2 T) : res (ndarray2 T) :=
  if decide (Forall (λ i, i < nrows a) idx)
  then mret (Arr2 (ncols a) (gather idx (rows a)))
  else raise IndexError.

(** [a.dot(b)] *)
Definition dot (a b : ndarray2 T) : res (ndarray2 T) :=
  if decide (ncols a = nrows b)
  then mret (Arr2 (ncols b) (matmul_rows (ncols b) (rows a) (rows b)))
  else raise ShapeMismatch.

(** [a[idx] = v].  numpy fits the shape of the value to the shape of the
    indexed rows before it looks at the indices themselves. *)
Definition set_rows (idx : list nat) (v a : ndarray2 T) : res (ndarray2 T) :=
  if decide (ncols v = ncols a ∧ (nrows v = length idx ∨ nrows v = 1)) then
    if decide (Forall (λ i, i < nrows a) idx)
    then mret (Arr2 (ncols a)
                 (scatter idx (broadcast_rows (length idx) (nrows v) (rows v))
                          (rows a)))
    else raise IndexError
  else raise ShapeMismatch.

(** [e[:, idx, :]] *)
Definition take_chans (idx : list nat) (e : ndarray3 T) : res (ndarray3 T) :=
  if decide (Forall (λ i, i < nchan3 e) idx)
  then mret (Arr3 (length idx) (nsamp3 e) (gather idx <$> trials e))
  else raise IndexError.

(** The contraction [ij,jy->iy] of [np.einsum] on one trial [t] of [nch]
    channels and [ns] samples.  Where the contracted axis [j] has length 1
    in one operand and not in the other, numpy repeats the single entry:
    the one column of [m], or the one channel of [t]. *)
Definition einsum_trial (m : ndarray2 T) (nch ns : nat) (t : list (list T))
    : list (list T) :=
  if decide (ncols m = nch) then matmul_rows ns (rows m) t
  else if decide (ncols m = 1)
  then matmul_rows ns
         ((λ u, replicate nch (default fzero (head u))) <$> rows m) t
  else matmul_rows ns (rows m) (replicate (ncols m) (default [] (head t))).

(** [np.einsum('ij,xjy->xiy', m, e)]: the lengths of the axis [j] must be
    equal, or one of them 1. *)
Definition einsum_ij_xjy (m : ndarray2 T) (e : ndarray3 T) : res (ndarray3 T) :=
  if decide (ncols m = nchan3 e ∨ ncols m = 1 ∨ nchan3 e = 1)
  then mret (Arr3 (nrows m) (nsamp3 e)
                  (einsum_trial m (nchan3 e) (nsamp3 e) <$> trials e))
  else raise ShapeMismatch.

(** [e[:, idx, :] = v], for a value with as many trials as [e]; the shape
    is fitted before the indices are looked at, as in [set_rows]. *)
Definition set_chans (idx : list nat) (v e : ndarray3 T) : res (ndarray3 T) :=
  if decide (nsamp3 v = nsamp3 e ∧ length (trials v) = length (trials e)
             ∧ (nchan3 v = length idx ∨ nchan3 v = 1)) then
    if decide (Forall (λ i, i < nchan3 e) idx) then
      mret (Arr3 (nchan3 e) (nsamp3 e)
              (zip_with (λ vt t,
                 scatter idx (broadcast_rows (length idx) (nchan3 v) vt) t)
                 (trials v) (trials e)))
    else raise IndexError
  else raise ShapeMismatch.
End Arrays.

(** ** Signal containers *)

Inductive ch_type := EEG | MEG | MISC.

#[global] Instance ch_type_eq_dec : EqDecision ch_type.
Proof. solve_decision. Defined.

Record vec3 (T : Type) := V3 { vx : T; vy : T; vz : T }.
Arguments V3 {T} _ _ _.
Arguments vx {T} _.
Arguments vy {T} _.
Arguments vz {T} _.

(** One entry of [info['chs']]: name, modality and sensor position. *)
Record channel (T : Type) :=
  Chan { ch_name : string; ch_kind : ch_type; ch_loc : vec3 T }.
Arguments Chan {T} _ _ _.
Arguments ch_name {T} _.
Arguments ch_kind {T} _.
Arguments ch_loc {T} _.

(** The sample data of the object handed to the interpolation, by class:
    [_BaseRaw] and [_BaseEpochs] keep it in [_data], [Evoked] in [data];
    any other object is known by the text of its type only. *)
Inductive sigdata (T : Type) :=
| RawData (_data : ndarray2 T)
| EpochsData (_data : ndarray3 T)
| EvokedData (data : ndarray2 T)
| OtherObject (type_repr : string).
Arguments RawData {T} _.
Arguments EpochsData {T} _.
Arguments EvokedData {T} _.
Arguments OtherObject {T} _.

Record inst (T : Type) :=
  Inst { chs : list (channel T); bads : list string; payload : sigdata T }.
Arguments Inst {T} _ _ _.
Arguments chs {T} _.
Arguments bads {T} _.
Arguments payload {T} _.

Definition set_payload {T} (i : inst T) (p : sigdata T) : inst T :=
  Inst (chs i) (bads i) p.

Section Applier.
Context {T : Type} `{Scalar T}.

Definition unsupported_message (type_repr : string) : string :=
  "Inputs of type " +:+ type_repr +:+ " are not supported".

(** [d[bads_idx] = interpolation.dot(d[goods_idx])] *)
Definition interp2 (interpolation : ndarray2 T) (goods_idx bads_idx : list nat)
    (d : ndarray2 T) : res (ndarray2 T) :=
  x ← take_rows goods_idx d;
  v ← dot interpolation x;
  set_rows bads_idx v d.

(** [d[:, bads_idx, :] = np.einsum('ij,xjy->xiy', interpolation,
    d[:, goods_idx, :])] *)
Definition interp3 (interpolation : ndarray2 T) (goods_idx bads_idx : list nat)
    (d : ndarray3 T) : res (ndarray3 T) :=
  x ← take_chans goods_idx d;
  v ← einsum_ij_xjy interpolation x;
  set_chans bads_idx v d.

(** [_do_interp_dots(inst, interpolation, goods_idx, bads_idx)]: the
    outcome and the state of [inst] afterwards. *)
Definition _do_interp_dots (i : inst T) (interpolation : ndarray2 T)
    (goods_idx bads_idx : list nat) : res unit * inst T :=
  match payload i with
  | RawData d =>
      match interp2 interpolation goods_idx bads_idx d with
      | inr d' => (inr (), set_payload i (RawData d'))
      | inl e => (inl e, i)
      end
  | EpochsData d =>
      match interp3 interpolation goods_idx bads_idx d with
      | inr d' => (inr (), set_payload i (EpochsData d'))
      | inl e => (inl e, i)
      end
  | EvokedData d =>
      match interp2 interpolation goods_idx bads_idx d with
      | inr d' => (inr (), set_payload i (EvokedData d'))
      | inl e => (inl e, i)
      end
  | OtherObject ty => (raise (ValueError (unsupported_message ty)), i)
  end.

(** *** What the statements about the applier speak of *)

Definition supported (p : sigdata T) : Prop :=
  match p with OtherObject _ => False | _ => True end.

(** Length of the channel axis. *)
Definition n_channels (p : sigdata T) : nat :=
  match p with
  | RawData d | EvokedData d => nrows d
  | EpochsData e => nchan3 e
  | OtherObject _ => 0
  end.

Definition wf_payload (p : sigdata T) : Prop :=
  match p with
  | RawData d | EvokedData d => wf2 d
  | EpochsData e => wf3 e
  | OtherObject _ => True
  end.

(** The channels x samples matrices of a container: the data itself, or
    one matrix per trial. *)
Definition slices (p : sigdata T) : list (ndarray2 T) :=
  match p with
  | RawData d | EvokedData d => [d]
  | EpochsData e => Arr2 (nsamp3 e) <$> trials e
  | OtherObject _ => []
  end.

(** The rows after an interpolation, from the rows before. *)
Definition interp_rows (nc : nat) (m : ndarray2 T) (goods bads : list nat)
    (rs : list (list T)) : list (list T) :=
  scatter bads
    (broadcast_rows (length bads) (nrows m)
       (matmul_rows nc (rows m) (gather goods rs)))
    rs.

(** What numpy checks of the shapes, on a channel axis of [nch] entries. *)
Definition shapes_fit (nch : nat) (m : ndarray2 T) (goods bads : list nat)
    : Prop :=
  Forall (λ k, k < nch) goods ∧ ncols m = length goods ∧
  Forall (λ k, k < nch) bads ∧ (nrows m = length bads ∨ nrows m = 1).

(** The rows of a trial after an interpolation, from the rows before. *)
Definition interp_rows3 (nc : nat) (m : ndarray2 T) (goods bads : list nat)
    (rs : list (list T)) : list (list T) :=
  scatter bads
    (broadcast_rows (length bads) (nrows m)
       (einsum_trial m (length goods) nc (gather goods rs)))
    rs.

(** What numpy checks of the shapes of a segmented container: the
    contraction also takes a matrix of one column, or a single good index. *)
Definition shapes_fit3 (nch : nat) (m : ndarray2 T) (goods bads : list nat)
    : Prop :=
  Forall (λ k, k < nch) goods ∧
  (ncols m = length goods ∨ ncols m = 1 ∨ length goods = 1) ∧
  Forall (λ k, k < nch) bads ∧ (nrows m = length bads ∨ nrows m = 1).

(** The calls that numpy accepts, by class of container. *)
Definition accepted (p : sigdata T) (m : ndarray2 T) (goods bads : list nat)
    : Prop :=
  match p with
  | RawData d | EvokedData d => shapes_fit (nrows d) m goods bads
  | EpochsData e => shapes_fit3 (nchan3 e) m goods bads
  | OtherObject _ => False
  end.

(** [d'[bads] = m . d[goods]], the good rows being those of [d] still. *)
Definition interpolated (m : ndarray2 T) (goods bads : list nat)
    (d d' : ndarray2 T) : Prop :=
  ∃ x y, take_rows goods d = inr x ∧ take_rows goods d' = inr x ∧
         dot m x = inr y ∧ take_rows bads d' = inr y.

(** [d'] is [d] outside the rows [bads], with the same shape. *)
Definition same_outside (bads : list nat) (d d' : ndarray2 T) : Prop :=
  ncols d' = ncols d ∧ nrows d' = nrows d ∧
  ∀ k, k ∉ bads → rows d' !! k = rows d !! k.

(** Same class of container. *)
Definition same_class (p q : sigdata T) : Prop :=
  match p, q with
  | RawData _, RawData _ | EpochsData _, EpochsData _
  | EvokedData _, EvokedData _ => True
  | OtherObject s, OtherObject t => s = t
  | _, _ => False
  end.
End Applier.

(** ** The kernel: [_calc_g] and [_calc_h] *)

Section Kernel.
Context {T : Type} `{FloatOps T}.

(** The loop of [numpy.polynomial.legendre.legval]: Clenshaw's recurrence,
    run from the highest coefficient down.  [cs] holds the coefficients
    still to be read, [c[-3]] first. *)
Fixpoint legval_loop (x : T) (nd : nat) (cs : list T) (c0 c1 : T) : T * T :=
  match cs with
  | [] => (c0, c1)
  | c :: cs' =>
      let nd := nd - 1 in
      legval_loop x nd cs'
        (fsub c (fdiv (fmul c1 (fof_nat (nd - 1))) (fof_nat nd)))
        (fadd c0 (fdiv (fmul (fmul c1 x) (fof_nat (2 * nd - 1))) (fof_nat nd)))
  end.

(** [legval(x, c)] at one point [x].  numpy refuses an empty coefficient
    list; the kernel never passes one. *)
Definition legval (x : T) (c : list T) : T :=
  match reverse c with
  | [] => fzero
  | [a] => fadd a (fmul fzero x)
  | c1 :: c0 :: cs =>
      let '(c0, c1) := legval_loop x (length c) cs c0 c1 in
      fadd c0 (fmul c1 x)
  end.

(** [legval] over every entry of a matrix. *)
Definition legval2 (cosang : ndarray2 T) (c : list T) : ndarray2 T :=
  Arr2 (ncols cosang) ((λ r : list T, (λ x, legval x c) <$> r) <$> rows cosang).

Definition g_factor (stiffness : Z) (n : nat) : T :=
  fdiv (fof_nat (2 * n + 1))
       (fmul (fmul (fmul (fpow (fof_nat n) stiffness)
                         (fpow (fof_nat (n + 1)) stiffness))
                   (fof_nat 4))
             fpi).

Definition g_factors (stiffness : Z) (num_lterms : nat) : list T :=
  g_factor stiffness <$> seq 1 num_lterms.

Definition _calc_g (cosang : ndarray2 T) (stiffness : Z) (num_lterms : nat)
    : ndarray2 T :=
  let factors := g_factors stiffness num_lterms in
  legval2 cosang (fzero :: factors).

Definition _calc_h (cosang : ndarray2 T) (stiffness : Z) (num_lterms : nat)
    : ndarray2 T :=
  let factors := g_factors (stiffness - 1) num_lterms in
  legval2 cosang (fzero :: factors).

Definition default_stiffness : Z := 4.
Definition default_num_lterms : nat := 50.
End Kernel.

(** ** Programs over a state *)

(** A Python procedure: from a state to an outcome and the state it leaves,
    which an exception does not roll back. *)
Definition prog (S A : Type) : Type := S → res A * S.

#[global] Instance prog_ret {S} : MRet (prog S) := λ A x s, (inr x, s).
#[global] Instance prog_bind {S} : MBind (prog S) := λ A B f m s,
  match m s with
  | (inl e, s') => (inl e, s')
  | (inr x, s') => f x s'
  end.

Definition lift_res {S A} (r : res A) : prog S A := λ s, (r, s).

(** ** The builder: [_make_interpolation_matrix] *)

(** Position arrays live in a store and are passed by reference. *)
Definition loc := nat.
Abbreviation store T := (gmap loc (ndarray2 T)).

Section Builder.
Context {T : Type} `{FloatOps T}.

(** [scipy.linalg.pinv], taken as given. *)
Variable pinv : ndarray2 T → ndarray2 T.

Definition deref (l : loc) : prog (store T) (ndarray2 T) := λ σ,
  match σ !! l with
  | Some a => (inr a, σ)
  | None => (raise InvalidReference, σ)
  end.

(** A new array is given a reference that is not in use. *)
Definition alloc (a : ndarray2 T) : prog (store T) loc := λ σ,
  let l := fresh (dom σ) in (inr l, <[l := a]> σ).

(** Writing through a reference: every holder of it sees the change. *)
Definition assign (l : loc) (a : ndarray2 T) : prog (store T) unit := λ σ,
  (inr (), <[l := a]> σ).

(** [a.copy()]: a new array with the same content. *)
Definition ndarray_copy (l : loc) : prog (store T) loc :=
  a ← deref l; alloc a.

Definition normalize_row (r : list T) : list T :=
  let size := fsqrt (vdot r r) in (λ x, fdiv x size) <$> r.

(** Modelled from the spec: [_normalize_vectors] of mne/surface.py, which
    divides each position by its own norm, in the array it is given. *)
Definition _normalize_vectors (l : loc) : prog (store T) unit :=
  a ← deref l; assign l (Arr2 (ncols a) (normalize_row <$> rows a)).

(** [a.T] *)
Definition transpose (a : ndarray2 T) : ndarray2 T :=
  Arr2 (nrows a) ((λ j, column j (rows a)) <$> seq 0 (ncols a)).

(** Rows of [nc] entries cut out of a flat sequence. *)
Definition unflatten (nc nr : nat) (flat : list T) : list (list T) :=
  (λ i, take nc (drop (i * nc) flat)) <$> seq 0 nr.

(** [a.flat[::step] += alpha] *)
Definition flat_stride_iadd (step : nat) (alpha : T) (a : ndarray2 T)
    : ndarray2 T :=
  Arr2 (ncols a)
    (unflatten (ncols a) (nrows a)
       (imap (λ p x, if decide (p `mod` step = 0) then fadd x alpha else x)
             (concat (rows a)))).

Definition _make_interpolation_matrix (pos_from pos_to : loc)
    (alpha : option T) : prog (store T) (ndarray2 T) :=
  pos_from ← ndarray_copy pos_from;
  pos_to ← ndarray_copy pos_to;
  _normalize_vectors pos_from;;
  _normalize_vectors pos_to;;
  pf ← deref pos_from;
  pt ← deref pos_to;
  cosang_from ← lift_res (dot pf (transpose pf));
  cosang_to_from ← lift_res (dot pt (transpose pf));
  let G_from := _calc_g cosang_from default_stiffness default_num_lterms in
  let G_to_from := _calc_g cosang_to_from default_stiffness default_num_lterms in
  let H_to_from := _calc_h cosang_to_from default_stiffness default_num_lterms in
  let G_from :=
    match alpha with
    | Some alpha => flat_stride_iadd (nrows G_from + 1) alpha G_from
    | None => G_from
    end in
  let C_inv := pinv G_from in
  lift_res (dot G_to_from C_inv).

(** *** The builder as the specification words it *)

(** No position has norm zero. *)
Definition no_zero_norm (a : ndarray2 T) : Prop :=
  Forall (λ r, fsqrt (vdot r r) ≠ fzero) (rows a).

Definition normalized (a : ndarray2 T) : ndarray2 T :=
  Arr2 (ncols a) (normalize_row <$> rows a).

(** [g + alpha . I] *)
Definition add_alpha_I (alpha : T) (g : ndarray2 T) : ndarray2 T :=
  Arr2 (ncols g)
    (imap (λ i r, imap (λ j x, if decide (i = j) then fadd x alpha else x) r)
          (rows g)).

Definition G (cosang : ndarray2 T) : ndarray2 T :=
  _calc_g cosang default_stiffness default_num_lterms.

Definition spline_matrix (pos_from pos_to : ndarray2 T) (alpha : T)
    : res (ndarray2 T) :=
  let pf := normalized pos_from in
  let pt := normalized pos_to in
  gg ← dot pf (transpose pf);
  bg ← dot pt (transpose pf);
  dot (G bg) (pinv (add_alpha_I alpha (G gg))).
End Builder.

(** ** Channel selection *)

Section Picks.
Context {T : Type}.

Definition ch_names (i : inst T) : list string := ch_name <$> chs i.

(** Modelled from the spec: [pick_types] of mne/io/pick.py, the indices in
    the channel list of the channels of the wanted modality whose name is
    not excluded ([exclude='bads'] is [exclude = bads i]). *)
Definition pick_types (i : inst T) (meg eeg : bool) (exclude : list string)
    : list nat :=
  omap (λ o, o)
    (imap (λ k c,
       if decide ((ch_kind c = MEG ∧ meg = true ∨ ch_kind c = EEG ∧ eeg = true)
                  ∧ ch_name c ∉ exclude)
       then Some k else None)
       (chs i)).

(** Modelled from the spec: [pick_channels] of mne/io/pick.py, the indices
    in [names] of the names that are in [include] (all of them when
    [include] is empty) and not in [exclude]. *)
Definition pick_channels (names include exclude : list string) : list nat :=
  omap (λ o, o)
    (imap (λ k name,
       if decide ((length include = 0 ∨ name ∈ include) ∧ name ∉ exclude)
       then Some k else None)
       names).

(** [m[picks] = vals] on a boolean mask. *)
Definition mask_set (picks : list nat) (vals m : list bool) : list bool :=
  foldl (λ (acc : list bool) (p : nat * bool), <[p.1 := p.2]> acc) m
        (zip picks vals).

(** [m[b] = False] for a boolean mask [b]. *)
Definition mask_clear (b m : list bool) : list bool :=
  zip_with (λ x y : bool, if x then false else y) b m.

(** [m[picks]] *)
Definition mask_take (picks : list nat) (m : list bool) : list bool :=
  (λ p, default false (m !! p)) <$> picks.

(** [l[mask]]: the entries where the mask holds. *)
Definition compress {A} (mask : list bool) (l : list A) : list A :=
  omap (λ p : bool * A, if p.1 then Some p.2 else None) (zip mask l).

(** The positions a boolean mask selects when used as an index. *)
Definition flatnonzero (mask : list bool) : list nat :=
  compress mask (seq 0 (length mask)).

(** Modelled from the spec: [inst._get_channel_positions(picks)], the 3D
    positions of the picked channels, one row each. *)
Definition _get_channel_positions (i : inst T) (picks : list nat)
    : ndarray2 T :=
  Arr2 3 ((λ p, match chs i !! p with
                | Some c => [vx (ch_loc c); vy (ch_loc c); vz (ch_loc c)]
                | None => []
                end) <$> picks).
End Picks.

(** ** The orchestrators *)

Inductive log_record :=
| LogWarning (msg : string)
| LogInfo (msg : string).

Definition poor_fit_warning : log_record :=
  LogWarning ("Your spherical fit is poor, interpolation results are "
              +:+ "likely to be inaccurate.").

Section Orchestrators.
Context {T : Type} `{FloatOps T}.

Variable pinv : ndarray2 T → ndarray2 T.

(** [_fit_sphere] of mne/bem.py, taken as given: the radius and the
    centre, in the order in which the caller unpacks them. *)
Variable _fit_sphere : ndarray2 T → T * list T.

(** [_map_meg_channels] of mne/forward, taken as given. *)
Variable _map_meg_channels : inst T → list nat → list nat → string → ndarray2 T.

Definition fsum (l : list T) : T := foldl fadd fzero l.

Definition fmean (l : list T) : T := fdiv (fsum l) (fof_nat (length l)).

(** The call [_make_interpolation_matrix(pos_good, pos_bad)] on two arrays
    of the caller, with the default [alpha]. *)
Definition call_make_interpolation_matrix (pos_good pos_bad : ndarray2 T)
    : res (ndarray2 T) :=
  fst ((lg ← alloc pos_good;
        lb ← alloc pos_bad;
        _make_interpolation_matrix pinv lg lb (Some f1e_5)) ∅).

(** The index arrays and position arrays of the EEG path.  They are
    computed without effect, so the model computes them ahead of the guard
    that the code places after [bads_idx]. *)
Record eeg_selection := EegSel {
  sel_picks : list nat;
  sel_bads_idx : list bool;
  sel_goods_idx : list bool;
  sel_pos_good : ndarray2 T;
  sel_pos_bad : ndarray2 T
}.

Definition eeg_bads_mask (i : inst T) (picks : list nat) : list bool :=
  let bads_idx := replicate (length (ch_names i)) false in
  mask_set picks
    ((λ ch, bool_decide (default "" (ch_names i !! ch) ∈ bads i)) <$> picks)
    bads_idx.

Definition eeg_select (i : inst T) : eeg_selection :=
  let goods_idx := replicate (length (ch_names i)) false in
  let picks := pick_types i false true [] in
  let bads_idx := eeg_bads_mask i picks in
  let goods_idx := mask_set picks (replicate (length picks) true) goods_idx in
  let goods_idx := mask_clear bads_idx goods_idx in
  let pos := _get_channel_positions i picks in
  let bads_idx_pos := mask_take picks bads_idx in
  let goods_idx_pos := mask_take picks goods_idx in
  let pos_good := Arr2 (ncols pos) (compress goods_idx_pos (rows pos)) in
  let pos_bad := Arr2 (ncols pos) (compress bads_idx_pos (rows pos)) in
  EegSel picks bads_idx goods_idx pos_good pos_bad.

(** [_interpolate_bads_eeg(inst)], on the container and the log.  The code
    hands the boolean masks to [_do_interp_dots]; indexing by a mask is
    indexing by the positions at which it holds. *)
Definition _interpolate_bads_eeg (i : inst T) (log : list log_record)
    : res unit * (inst T * list log_record) :=
  let s := eeg_select i in
  if decide (length (sel_picks s) = 0 ∨ length (sel_bads_idx s) = 0)
  then (inr (), (i, log))
  else
    let pos_good := sel_pos_good s in
    let pos_bad := sel_pos_bad s in
    let '(radius, center) := _fit_sphere pos_good in
    let distance :=
      (λ r, fsqrt (fsum ((λ d, fmul d d) <$> zip_with fsub r center)))
        <$> rows pos_good in
    let distance := fmean ((λ d, fdiv d radius) <$> distance) in
    let log :=
      if fgt (fabs (fsub (fof_nat 1) distance)) f0_1
      then log ++ [poor_fit_warning] else log in
    let log :=
      log ++ [LogInfo ("Computing interpolation matrix from "
                       +:+ pretty (nrows pos_good) +:+ " sensor positions")] in
    match call_make_interpolation_matrix pos_good pos_bad with
    | inl e => (inl e, (i, log))
    | inr interpolation =>
        let log :=
          log ++ [LogInfo ("Interpolating " +:+ pretty (nrows pos_bad)
                           +:+ " sensors")] in
        let '(r, i') :=
          _do_interp_dots i interpolation
            (flatnonzero (sel_goods_idx s)) (flatnonzero (sel_bads_idx s)) in
        (r, (i', log))
    end.

(** The index arrays of the MEG path: [(picks_meg, picks_good, picks_bad)]. *)
Definition meg_select (i : inst T) : list nat * list nat * list nat :=
  let picks_meg := pick_types i true false [] in
  let ch_names := (λ p, default "" (ch_names i !! p)) <$> picks_meg in
  let picks_good := pick_types i true false (bads i) in
  let picks_bad :=
    if decide (length (bads i) = 0) then []
    else pick_channels ch_names (bads i) [] in
  (picks_meg, picks_good, picks_bad).

(** [_interpolate_bads_meg(inst, mode)] *)
Definition _interpolate_bads_meg (i : inst T) (mode : string)
    : res unit * inst T :=
  let '(picks_meg, picks_good, picks_bad) := meg_select i in
  if decide (length picks_meg = 0 ∨ length picks_bad = 0)
  then (inr (), i)
  else
    let mapping := _map_meg_channels i picks_good picks_bad mode in
    _do_interp_dots i mapping picks_good picks_bad.

(** *** The sphere check as the specification words it *)

(** Distance of a position from the centre. *)
Definition distance_from (center p : list T) : T :=
  fsqrt (fsum ((λ d, fmul d d) <$> zip_with fsub p center)).

(** Mean over the positions of distance / radius. *)
Definition mean_ratio (radius : T) (center : list T) (pos : ndarray2 T) : T :=
  fmean ((λ p, fdiv (distance_from center p) radius) <$> rows pos).

(** [|1 - meanRatio| > 0.1] *)
Definition poor_fit (radius : T) (center : list T) (pos : ndarray2 T) : bool :=
  fgt (fabs (fsub (fof_nat 1) (mean_ratio radius center pos))) f0_1.
End Orchestrators.

(** *** The sphere check on whatever the fit returns *)

(** Python does not fix the types of the two values that [_fit_sphere]
    returns: each may be a number or a one-dimensional array, and the
    arithmetic of the check is numpy's on either. *)
Inductive npvalue (T : Type) :=
| Number (x : T)
| Array1 (v : list T).
Arguments Number {T} _.
Arguments Array1 {T} _.

Section GeometryCheck.
Context {T : Type} `{FloatOps T}.

(** [pos - center]: a number is subtracted from every entry; an array of
    [k] entries is subtracted from every row of [m] entries when [k = m],
    its single entry is repeated when [k = 1], the single column of [pos]
    is repeated when [m = 1], and other shapes do not fit. *)
Definition sub_center (pos : ndarray2 T) (center : npvalue T)
    : res (ndarray2 T) :=
  match center with
  | Number c =>
      mret (Arr2 (ncols pos)
              ((λ r : list T, (λ x, fsub x c) <$> r) <$> rows pos))
  | Array1 v =>
      if decide (length v = ncols pos)
      then mret (Arr2 (ncols pos) ((λ r, zip_with fsub r v) <$> rows pos))
      else if decide (length v = 1)
      then mret (Arr2 (ncols pos)
                   ((λ r : list T,
                       (λ x, fsub x (default fzero (head v))) <$> r)
                      <$> rows pos))
      else if decide (ncols pos = 1)
      then mret (Arr2 (length v)
                   ((λ r : list T,
                       (λ y, fsub (default fzero (head r)) y) <$> v)
                      <$> rows pos))
      else raise ShapeMismatch
  end.

(** [distance / radius] for a one-dimensional [distance], with the same
    rules. *)
Definition div_radius (distance : list T) (radius : npvalue T)
    : res (list T) :=
  match radius with
  | Number r => mret ((λ d, fdiv d r) <$> distance)
  | Array1 v =>
      if decide (length v = length distance)
      then mret (zip_with fdiv distance v)
      else if decide (length v = 1)
      then mret ((λ d, fdiv d (default fzero (head v))) <$> distance)
      else if decide (length distance = 1)
      then mret ((λ y, fdiv (default fzero (head distance)) y) <$> v)
      else raise ShapeMismatch
  end.

(** The sphere check of [_interpolate_bads_eeg] on the pair that
    [_fit_sphere] has returned, of which the code takes the first component
    for the radius and the second for the centre: whether the warning is
    logged, or the exception that the arithmetic raises. *)
Definition sphere_check (fitted : npvalue T * npvalue T)
    (pos_good : ndarray2 T) : res bool :=
  let '(radius, center) := fitted in
  d ← sub_center pos_good center;
  let distance :=
    (λ r : list T, fsqrt (fsum ((λ x, fmul x x) <$> r))) <$> rows d in
  distance ← div_radius distance radius;
  let distance := fmean distance in
  mret (fgt (fabs (fsub (fof_nat 1) distance)) f0_1).
End GeometryCheck.

(** ** Instances of the arithmetic *)

(** Integer samples, for running the applier. *)
#[global] Instance Z_scalar : Scalar Z :=
  {| fzero := 0%Z; fadd := Z.add; fmul := Z.mul |}.

(** Real numbers: the arithmetic the kernel formulas are written in. *)
Module RealArith.
Import Reals.
#[local] Open Scope R_scope.

#[export] Instance R_scalar : Scalar R :=
  {| fzero := 0; fadd := Rplus; fmul := Rmult |}.

#[export] Instance R_floatops : FloatOps R :=
  {| fsub := Rminus; fdiv := Rdiv; fsqrt := sqrt; fabs := Rabs;
     fgt := λ a b, if Rgt_dec a b then true else false;
     fof_nat := INR; fpow := powerRZ; fpi := PI;
     f0_1 := 1 / 10; f1e_5 := 1 / 100000 |}.

(** The Legendre polynomials, by Bonnet's recurrence
    [(n+1) P_(n+1) = (2n+1) x P_n - n P_(n-1)]. *)
Fixpoint legendre (n : nat) (x : R) : R :=
  match n with
  | O => 1
  | S n' =>
      match n' with
      | O => x
      | S n'' =>
          ((2 * INR n' + 1) * x * legendre n' x - INR n' * legendre n'' x)
          / INR n
      end
  end.

Definition Rsum (l : list R) : R := foldr Rplus 0 l.

(** The series [c_0 P_0(x) + c_1 P_1(x) + ...] of a coefficient list. *)
Definition legendre_series (c : list R) (x : R) : R :=
  Rsum (imap (λ n cn, cn * legendre n x) c).

(** The coefficient [(2n+1) / (n^m (n+1)^m 4 pi)] of the specification. *)
Definition spline_coefficient (m : Z) (n : nat) : R :=
  (2 * INR n + 1) / (powerRZ (INR n) m * powerRZ (INR n + 1) m * (4 * PI)).

(** The truncated series of the specification, from degree 1 to [L]. *)
Definition spline_series (m : Z) (L : nat) (x : R) : R :=
  Rsum ((λ n, spline_coefficient m n * legendre n x) <$> seq 1 L).

Definition map_entries (f : R → R) (a : ndarray2 R) : ndarray2 R :=
  Arr2 (ncols a) ((λ r : list R, f <$> r) <$> rows a).

(** *** Sample data over the reals *)

(** Two good sensors on the unit sphere and a bad one. *)
Definition good_positions : ndarray2 R := Arr2 3 [[1; 0; 0]; [0; 1; 0]].
Definition bad_positions : ndarray2 R := Arr2 3 [[0; 0; 1]].

(** A store in which the caller holds the two arrays. *)
Definition caller_store : gmap loc (ndarray2 R) :=
  <[0%nat := good_positions]> (<[1%nat := bad_positions]> ∅).

(** A continuous recording of three EEG channels, the last one bad. *)
Definition real_raw : inst R :=
  Inst [Chan "EEG 001" EEG (V3 1 0 0); Chan "EEG 002" EEG (V3 0 1 0);
        Chan "EEG 003" EEG (V3 0 0 1)]
       ["EEG 003"]
       (RawData (Arr2 2 [[1; 2]; [3; 4]; [5; 6]])).

(** Stand-ins for the two collaborators: a pseudo-inverse that returns its
    argument, and a fit that answers the unit sphere. *)
Definition pinv_stub (g : ndarray2 R) : ndarray2 R := g.
Definition unit_sphere_fit (_ : ndarray2 R) : R * list R := (1, [0; 0; 0]).


(** *** The sphere check as geometry *)




End RealArith.


(** ** Sample containers *)

Module Samples.
#[local] Open Scope Z_scope.

Definition three_channels : list (channel Z) :=
  [Chan "EEG 001" EEG (V3 1 0 0); Chan "EEG 002" EEG (V3 0 1 0);
   Chan "EEG 003" EEG (V3 0 0 1)].

(** Three channels of two samples; the last channel is bad. *)
Definition raw3 : inst Z :=
  Inst three_channels ["EEG 003"] (RawData (Arr2 2 [[1; 2]; [3; 4]; [5; 6]])).

Definition evoked3 : inst Z :=
  Inst three_channels ["EEG 003"]
       (EvokedData (Arr2 2 [[1; 2]; [3; 4]; [5; 6]])).

(** Two trials of the same three channels. *)
Definition epochs3 : inst Z :=
  Inst three_channels ["EEG 003"]
       (EpochsData (Arr3 3 2 [[[1; 2]; [3; 4]; [5; 6]];
                              [[10; 20]; [30; 40]; [50; 60]]])).

(** An object of a foreign class. *)
Definition plain_object : inst Z :=
  Inst [] [] (OtherObject "<class 'dict'>").

(** The matrix that adds the two good channels. *)
Definition sum_of_goods : ndarray2 Z := Arr2 2 [[1; 1]].

(** An EEG channel ahead of two MEG channels, the last of which is bad. *)
Definition eeg_then_meg : inst Z :=
  Inst [Chan "EEG 001" EEG (V3 1 0 0); Chan "MEG 0111" MEG (V3 0 1 0);
        Chan "MEG 0112" MEG (V3 0 0 1)]
       ["MEG 0112"]
       (RawData (Arr2 2 [[10; 11]; [20; 21]; [30; 31]])).

(** The same channels with the MEG channels first. *)
Definition meg_then_eeg : inst Z :=
  Inst [Chan "MEG 0111" MEG (V3 0 1 0); Chan "MEG 0112" MEG (V3 0 0 1);
        Chan "EEG 001" EEG (V3 1 0 0)]
       ["MEG 0112"]
       (RawData (Arr2 2 [[20; 21]; [30; 31]; [10; 11]])).

(** A forward mapping that doubles the single good channel. *)
Definition doubling (_ : inst Z) (_ _ : list nat) (_ : string) : ndarray2 Z :=
  Arr2 1 [[2]].
End Samples.
(** ** Further notions used in the statements *)

Section MoreNotions.
Context {T : Type} `{Scalar T}.


(** The row [u . x] of a product, [x] having [nc] columns. *)
Definition row_times (nc : nat) (u : list T) (x : list (list T)) : list T :=
  (λ j, vdot u (column j x)) <$> seq 0 nc.

(** The entry [a[i, j]], when there is one. *)
Definition entry (a : ndarray2 T) (i j : nat) : option T :=
  r ← rows a !! i; r !! j.

(** [a] is square and equal to its transpose, entry by entry. *)
Definition symmetric (a : ndarray2 T) : Prop :=
  ncols a = nrows a ∧ ∀ i j, entry a i j = entry a j i.
End MoreNotions.

Module RealNotions.
Import Reals RealArith.
#[local] Open Scope R_scope.

(** Every coordinate multiplied by [k]. *)
Definition scaled (k : R) (a : ndarray2 R) : ndarray2 R :=
  Arr2 (ncols a) ((λ r : list R, Rmult k <$> r) <$> rows a).

(** The sample positions in other units, kept at other places. *)
Definition scaled_store : gmap loc (ndarray2 R) :=
  <[4%nat := scaled 2 good_positions]> (<[7%nat := scaled 3 bad_positions]> ∅).

(** A target position with two coordinates only. *)
Definition planar_position : ndarray2 R := Arr2 2 [[1; 0]].

Definition mismatched_store : gmap loc (ndarray2 R) :=
  <[0%nat := good_positions]> (<[1%nat := planar_position]> ∅).

(** Two target positions, and a store that holds the second one alone,
    with the source positions at another place. *)
Definition two_targets : ndarray2 R := Arr2 3 [[0; 0; 1]; [1; 1; 0]].

Definition targets_store : gmap loc (ndarray2 R) :=
  <[0%nat := good_positions]> (<[1%nat := two_targets]> ∅).

Definition second_target_store : gmap loc (ndarray2 R) :=
  <[5%nat := good_positions]> (<[2%nat := Arr2 3 [[1; 1; 0]]]> ∅).

(** Three EEG channels, none of them bad. *)
Definition real_raw_clean : inst R :=
  Inst (chs real_raw) [] (payload real_raw).

(** Two MEG channels and no EEG channel. *)
Definition real_meg_only : inst R :=
  Inst [Chan "MEG 0111" MEG (V3 0 1 0); Chan "MEG 0112" MEG (V3 0 0 1)]
       ["MEG 0112"]
       (RawData (Arr2 2 [[1; 2]; [3; 4]])).
End RealNotions.

Module MoreSamples.
Import Samples.
#[local] Open Scope Z_scope.


(** Matrices of one row and one column. *)
Definition twice : ndarray2 Z := Arr2 1 [[2]].



Definition epochs3_data : ndarray3 Z :=
  Arr3 3 2 [[[1; 2]; [3; 4]; [5; 6]]; [[10; 20]; [30; 40]; [50; 60]]].

Definition epochs3_after : inst Z :=
  Inst three_channels ["EEG 003"]
       (EpochsData (Arr3 3 2 [[[1; 2]; [3; 4]; [4; 6]];
                              [[10; 20]; [30; 40]; [40; 60]]])).
End MoreSamples.

Section SelectionNotions.
Context {T : Type}.

(** The test of [pick_types] on one channel. *)
Definition picked (meg eeg : bool) (exclude : list string) (c : channel T)
    : Prop :=
  (ch_kind c = MEG ∧ meg = true ∨ ch_kind c = EEG ∧ eeg = true)
  ∧ ch_name c ∉ exclude.

(** Channel [k] of the container has the kind [kind] and its name is (is
    not) in the bad list. *)
Definition bad_channel (kind : ch_type) (i : inst T) (k : nat) : Prop :=
  ∃ c, chs i !! k = Some c ∧ ch_kind c = kind ∧ ch_name c ∈ bads i.

Definition good_channel (kind : ch_type) (i : inst T) (k : nat) : Prop :=
  ∃ c, chs i !! k = Some c ∧ ch_kind c = kind ∧ ch_name c ∉ bads i.

(** The position of channel [k], as a row of three coordinates. *)
Definition position_row (i : inst T) (k : nat) : list T :=
  match chs i !! k with
  | Some c => [vx (ch_loc c); vy (ch_loc c); vz (ch_loc c)]
  | None => []
  end.
End SelectionNotions.


(** * Properties *)

(** ** Reading and writing rows *)

Section ArrayFacts.
Context {T : Type} `{Scalar T}.
Implicit Types (rs vs : list (list T)) (idx : list nat).

Lemma scatter_cons i idx v vs rs :
  scatter (i :: idx) (v :: vs) rs = scatter idx vs (<[i := v]> rs).
Proof. reflexivity. Qed.

Lemma length_scatter idx vs rs : length (scatter idx vs rs) = length rs.
Proof.
  revert vs rs. induction idx as [|i idx IH]; intros [|v vs] rs; try done.
  rewrite scatter_cons, IH. apply length_insert.
Qed.

Lemma lookup_scatter_notin idx vs rs j :
  j ∉ idx → scatter idx vs rs !! j = rs !! j.
Proof.
  revert vs rs. induction idx as [|i idx IH]; intros [|v vs] rs Hj; try done.
  apply not_elem_of_cons in Hj as [Hne Hj].
  rewrite scatter_cons, IH by done. by apply list_lookup_insert_ne.
Qed.

Lemma gather_scatter idx vs rs :
  NoDup idx → Forall (λ i, i < length rs) idx → length vs = length idx →
  gather idx (scatter idx vs rs) = vs.
Proof.
  revert vs rs. induction idx as [|i idx IH]; intros [|v vs] rs Hnd Hin Hlen;
    simplify_eq/=; try done.
  apply NoDup_cons in Hnd as [Hi Hnd]. apply Forall_cons in Hin as [Hlt Hin].
  f_equal.
  - rewrite scatter_cons, lookup_scatter_notin by done.
    by rewrite list_lookup_insert_eq.
  - apply IH; [done| |done]. by rewrite length_insert.
Qed.

Lemma gather_ext idx rs rs' :
  (∀ i, i ∈ idx → rs !! i = rs' !! i) → gather idx rs = gather idx rs'.
Proof.
  intros Hx. unfold gather. apply list_fmap_ext.
  intros k i Hk. rewrite Hx; [done|]. by eapply list_elem_of_lookup_2.
Qed.

Lemma length_gather idx rs : length (gather idx rs) = length idx.
Proof. unfold gather. by rewrite length_fmap. Qed.

(** The result of a write depends on the target outside the written rows
    only. *)
Lemma scatter_outside idx vs rs rs' :
  length idx ≤ length vs → length rs = length rs' →
  (∀ j, j ∉ idx → rs !! j = rs' !! j) →
  scatter idx vs rs = scatter idx vs rs'.
Proof.
  revert vs rs rs'.
  induction idx as [|i idx IH]; intros [|v vs] rs rs' Hlen Hl Hout;
    simpl in Hlen; try lia.
  - apply list_eq. intros j. apply Hout. by apply not_elem_of_nil.
  - apply list_eq. intros j. apply Hout. by apply not_elem_of_nil.
  - rewrite !scatter_cons. apply IH; [lia|by rewrite !length_insert|].
    intros j Hj. destruct (decide (i = j)) as [->|Hne].
    + destruct (decide (j < length rs)).
      * rewrite !list_lookup_insert_eq; [done|lia|lia].
      * rewrite !list_insert_ge by lia.
        rewrite !lookup_ge_None_2; [done|lia|lia].
    + rewrite !list_lookup_insert_ne by done.
      apply Hout. by apply not_elem_of_cons.
Qed.

Lemma scatter_idem idx vs rs :
  length idx ≤ length vs →
  scatter idx vs (scatter idx vs rs) = scatter idx vs rs.
Proof.
  intros Hlen. apply scatter_outside; [done|apply length_scatter|].
  intros j Hj. by apply lookup_scatter_notin.
Qed.

Lemma Forall_scatter (P : list T → Prop) idx vs rs :
  Forall P vs → Forall P rs → Forall P (scatter idx vs rs).
Proof.
  revert vs rs. induction idx as [|i idx IH]; intros [|v vs] rs Hv Hr; try done.
  apply Forall_cons in Hv as [Hv Hvs].
  rewrite scatter_cons. apply IH; [done|]. by apply Forall_insert.
Qed.

Lemma broadcast_rows_same k vs : broadcast_rows k k vs = vs.
Proof. unfold broadcast_rows. by rewrite decide_True. Qed.

Lemma length_broadcast_rows k n vs :
  length vs = n → n = k ∨ n = 1 → length (broadcast_rows k n vs) = k.
Proof.
  intros Hl Hn. unfold broadcast_rows. case_decide; [lia|].
  by rewrite length_replicate.
Qed.
End ArrayFacts.

(** ** The applier on one array *)

Section ApplierFacts.
Context {T : Type} `{Scalar T}.
Implicit Types (M : ndarray2 T) (goods bads : list nat).

Lemma length_matmul_rows nc (m x : list (list T)) :
  length (matmul_rows nc m x) = length m.
Proof. unfold matmul_rows. by rewrite length_fmap. Qed.

Lemma Forall_length_matmul_rows nc (m x : list (list T)) :
  Forall (λ r, length r = nc) (matmul_rows nc m x).
Proof.
  unfold matmul_rows. apply Forall_fmap, Forall_true. intros u. simpl.
  by rewrite length_fmap, length_seq.
Qed.

Lemma interp2_inr M goods bads d d' :
  interp2 M goods bads d = inr d' ↔
  shapes_fit (nrows d) M goods bads ∧
  d' = Arr2 (ncols d) (interp_rows (ncols d) M goods bads (rows d)).
Proof.
  unfold interp2, take_rows, dot, set_rows, shapes_fit, interp_rows, nrows.
  unfold mbind, res_bind, mret, res_ret, raise. simpl.
  repeat (simpl; rewrite ?length_gather, ?length_matmul_rows; case_decide);
    (split; [intros ?; simplify_eq; intuition done
            |intros [(?&?&?&?) ->]; try done; exfalso; intuition done]).
Qed.

Lemma length_einsum_trial M nch ns (t : list (list T)) :
  length (einsum_trial M nch ns t) = nrows M.
Proof.
  unfold einsum_trial, nrows.
  repeat case_decide; by rewrite length_matmul_rows, ?length_fmap.
Qed.

Lemma Forall_length_einsum_trial M nch ns (t : list (list T)) :
  Forall (λ r, length r = ns) (einsum_trial M nch ns t).
Proof.
  unfold einsum_trial. repeat case_decide; apply Forall_length_matmul_rows.
Qed.

(** With one column per channel nothing is repeated. *)
Lemma einsum_trial_fit M nch ns (t : list (list T)) :
  ncols M = nch → einsum_trial M nch ns t = matmul_rows ns (rows M) t.
Proof. intros Hc. unfold einsum_trial. by rewrite decide_True. Qed.

Lemma interp_rows3_fit nc M goods bads rs :
  ncols M = length goods →
  interp_rows3 nc M goods bads rs = interp_rows nc M goods bads rs.
Proof.
  intros Hc. unfold interp_rows3, interp_rows. by rewrite einsum_trial_fit.
Qed.

Lemma shapes_fit_fit3 nch M goods bads :
  shapes_fit nch M goods bads → shapes_fit3 nch M goods bads.
Proof. intros (?&?&?&?). repeat split; auto. Qed.

Lemma interp3_inr M goods bads e e' :
  interp3 M goods bads e = inr e' ↔
  shapes_fit3 (nchan3 e) M goods bads ∧
  e' = Arr3 (nchan3 e) (nsamp3 e)
         (interp_rows3 (nsamp3 e) M goods bads <$> trials e).
Proof.
  unfold interp3, take_chans, einsum_ij_xjy, set_chans, shapes_fit3, nrows.
  unfold mbind, res_bind, mret, res_ret, raise. simpl.
  assert (∀ l : list (list (list T)),
    zip_with (λ vt t, scatter bads (broadcast_rows (length bads) (length (rows M)) vt) t)
      (einsum_trial M (length goods) (nsamp3 e) <$> (gather goods <$> l)) l
    = interp_rows3 (nsamp3 e) M goods bads <$> l) as Hz.
  { intros l. rewrite <-list_fmap_compose, zip_with_fmap_l, zip_with_diag.
    done. }
  repeat (simpl; rewrite ?length_fmap, ?Hz; case_decide);
    (split; [intros ?; simplify_eq; intuition done
            |intros [(?&?&?&?) ->]; try done; exfalso; intuition done]).
Qed.

(** With one matrix column per good index the segmented container is
    treated trial by trial as a continuous one is. *)
Lemma interp3_fit M goods bads e :
  shapes_fit (nchan3 e) M goods bads →
  interp3 M goods bads e
  = inr (Arr3 (nchan3 e) (nsamp3 e)
           (interp_rows (nsamp3 e) M goods bads <$> trials e)).
Proof.
  intros Hs. apply interp3_inr. split; [by apply shapes_fit_fit3|].
  f_equal. apply list_fmap_ext. intros k t _.
  symmetry. apply interp_rows3_fit, Hs.
Qed.

Lemma length_interp_rows nc M goods bads rs :
  length (interp_rows nc M goods bads rs) = length rs.
Proof. apply length_scatter. Qed.

Lemma lookup_interp_rows_notin nc M goods bads rs k :
  k ∉ bads → interp_rows nc M goods bads rs !! k = rs !! k.
Proof. apply lookup_scatter_notin. Qed.

Lemma gather_goods_interp_rows nc M goods bads rs :
  goods ## bads →
  gather goods (interp_rows nc M goods bads rs) = gather goods rs.
Proof.
  intros Hd. apply gather_ext. intros k Hk.
  apply lookup_interp_rows_notin. intros Hb. by apply (Hd k).
Qed.

Lemma gather_bads_interp_rows nc M goods bads rs :
  NoDup bads → Forall (λ k, k < length rs) bads → nrows M = length bads →
  gather bads (interp_rows nc M goods bads rs)
  = matmul_rows nc (rows M) (gather goods rs).
Proof.
  intros Hnd Hin Hn. unfold interp_rows.
  rewrite Hn, broadcast_rows_same.
  apply gather_scatter; [done|done|]. by rewrite length_matmul_rows.
Qed.

Lemma interp_rows_idem nc M goods bads rs :
  goods ## bads → nrows M = length bads ∨ nrows M = 1 →
  interp_rows nc M goods bads (interp_rows nc M goods bads rs)
  = interp_rows nc M goods bads rs.
Proof.
  intros Hd Hn. unfold interp_rows at 1.
  rewrite gather_goods_interp_rows by done.
  apply scatter_idem.
  rewrite length_broadcast_rows; [done| |done].
  by rewrite length_matmul_rows.
Qed.

Lemma Forall_length_interp_rows nc M goods bads rs :
  nrows M = length bads ∨ nrows M = 1 →
  Forall (λ r, length r = nc) rs →
  Forall (λ r, length r = nc) (interp_rows nc M goods bads rs).
Proof.
  intros Hn Hrs. apply Forall_scatter; [|done].
  pose proof (Forall_length_matmul_rows nc (rows M) (gather goods rs)) as Hm.
  pose proof (length_matmul_rows nc (rows M) (gather goods rs)) as Hl.
  unfold broadcast_rows. case_decide; [done|].
  apply Forall_replicate.
  destruct (matmul_rows nc (rows M) (gather goods rs)) as [|r l]; simpl.
  - unfold nrows in *. simpl in Hl. lia.
  - by apply Forall_cons in Hm as [? _].
Qed.

Lemma interp2_twice M goods bads d d' :
  goods ## bads →
  interp2 M goods bads d = inr d' → interp2 M goods bads d' = inr d'.
Proof.
  intros Hd [Hs ->]%interp2_inr. apply interp2_inr. split.
  - unfold nrows in *; simpl. by rewrite length_interp_rows.
  - simpl. by rewrite interp_rows_idem by (done || apply Hs).
Qed.

Lemma length_interp_rows3 nc M goods bads rs :
  length (interp_rows3 nc M goods bads rs) = length rs.
Proof. apply length_scatter. Qed.

Lemma lookup_interp_rows3_notin nc M goods bads rs k :
  k ∉ bads → interp_rows3 nc M goods bads rs !! k = rs !! k.
Proof. apply lookup_scatter_notin. Qed.

Lemma gather_goods_interp_rows3 nc M goods bads rs :
  goods ## bads →
  gather goods (interp_rows3 nc M goods bads rs) = gather goods rs.
Proof.
  intros Hd. apply gather_ext. intros k Hk.
  apply lookup_interp_rows3_notin. intros Hb. by apply (Hd k).
Qed.

Lemma interp_rows3_idem nc M goods bads rs :
  goods ## bads → nrows M = length bads ∨ nrows M = 1 →
  interp_rows3 nc M goods bads (interp_rows3 nc M goods bads rs)
  = interp_rows3 nc M goods bads rs.
Proof.
  intros Hd Hn. unfold interp_rows3 at 1.
  rewrite gather_goods_interp_rows3 by done.
  apply scatter_idem.
  rewrite length_broadcast_rows; [done| |done].
  by rewrite length_einsum_trial.
Qed.

Lemma Forall_length_interp_rows3 nc M goods bads rs :
  nrows M = length bads ∨ nrows M = 1 →
  Forall (λ r, length r = nc) rs →
  Forall (λ r, length r = nc) (interp_rows3 nc M goods bads rs).
Proof.
  intros Hn Hrs. apply Forall_scatter; [|done].
  pose proof (Forall_length_einsum_trial M (length goods) nc (gather goods rs))
    as Hm.
  pose proof (length_einsum_trial M (length goods) nc (gather goods rs)) as Hl.
  unfold broadcast_rows. case_decide; [done|].
  apply Forall_replicate.
  destruct (einsum_trial M (length goods) nc (gather goods rs)) as [|r l]; simpl.
  - unfold nrows in *. simpl in Hl. lia.
  - by apply Forall_cons in Hm as [? _].
Qed.

Lemma interp3_twice M goods bads e e' :
  goods ## bads →
  interp3 M goods bads e = inr e' → interp3 M goods bads e' = inr e'.
Proof.
  intros Hd [Hs ->]%interp3_inr. apply interp3_inr. split; [done|].
  simpl. rewrite <-list_fmap_compose. f_equal.
  apply list_fmap_ext. intros k t _; simpl.
  by rewrite interp_rows3_idem by (done || apply Hs).
Qed.
End ApplierFacts.

(** ** The applier on a container *)

Section ApplierClaims.
Context {T : Type} `{Scalar T}.
Implicit Types (i : inst T) (M : ndarray2 T) (goods_idx bads_idx : list nat).

Lemma interpolated_interp_rows M goods_idx bads_idx nc rs :
  NoDup bads_idx → goods_idx ## bads_idx →
  Forall (λ k, k < length rs) goods_idx →
  Forall (λ k, k < length rs) bads_idx →
  ncols M = length goods_idx → nrows M = length bads_idx →
  interpolated M goods_idx bads_idx (Arr2 nc rs)
    (Arr2 nc (interp_rows nc M goods_idx bads_idx rs)).
Proof.
  intros Hnd Hdisj Hg Hb Hc Hr.
  exists (Arr2 nc (gather goods_idx rs)),
         (Arr2 nc (matmul_rows nc (rows M) (gather goods_idx rs))).
  unfold take_rows, dot, nrows; simpl.
  rewrite length_interp_rows, length_gather.
  rewrite !decide_True by done.
  rewrite gather_goods_interp_rows, gather_bads_interp_rows by done.
  done.
Qed.

Lemma same_outside_interp_rows M goods_idx bads_idx nc rs :
  same_outside bads_idx (Arr2 nc rs)
    (Arr2 nc (interp_rows nc M goods_idx bads_idx rs)).
Proof.
  split; [done|]. split.
  - apply length_interp_rows.
  - intros k Hk. by apply lookup_interp_rows_notin.
Qed.

Lemma same_outside_interp_rows3 M goods_idx bads_idx nc rs :
  same_outside bads_idx (Arr2 nc rs)
    (Arr2 nc (interp_rows3 nc M goods_idx bads_idx rs)).
Proof.
  split; [done|]. split.
  - apply length_interp_rows3.
  - intros k Hk. by apply lookup_interp_rows3_notin.
Qed.

(** C2: on a container of one of the three supported shapes, with row
    indices in range, distinct bad indices disjoint from the good ones and
    a matrix of [|bads|] rows and [|goods|] columns, [_do_interp_dots]
    succeeds, and in every channels x samples matrix of the container (the
    data of a continuous or averaged container, each trial of a segmented
    one) the rows at the bad indices become the product of the matrix with
    the rows at the good indices. *)
Theorem do_interp_dots_interpolates i M goods_idx bads_idx :
  supported (payload i) → wf_payload (payload i) →
  NoDup bads_idx → goods_idx ## bads_idx →
  Forall (λ k, k < n_channels (payload i)) goods_idx →
  Forall (λ k, k < n_channels (payload i)) bads_idx →
  ncols M = length goods_idx → nrows M = length bads_idx →
  ∃ i', _do_interp_dots i M goods_idx bads_idx = (inr (), i') ∧
        same_class (payload i) (payload i') ∧
        Forall2 (interpolated M goods_idx bads_idx)
                (slices (payload i)) (slices (payload i')).
Proof.
  intros Hsup Hwf Hnd Hdisj Hg Hb Hc Hr. unfold _do_interp_dots.
  destruct (payload i) as [d|e|d|ty] eqn:Hp; simpl in *; [| | |done].
  - destruct (interp2 M goods_idx bads_idx d) as [err|d'] eqn:Hi.
    + pose proof (proj2 (interp2_inr M goods_idx bads_idx d _)
                    (conj (conj Hg (conj Hc (conj Hb (or_introl Hr)))) eq_refl)).
      congruence.
    + apply interp2_inr in Hi as [_ ->]. eexists; split; [done|].
      split; [done|]. simpl. constructor; [|constructor].
      destruct d as [nc rs]. by apply interpolated_interp_rows.
  - rewrite (interp3_fit M goods_idx bads_idx e
               (conj Hg (conj Hc (conj Hb (or_introl Hr))))).
    eexists; split; [done|].
    split; [done|]. simpl. rewrite <-list_fmap_compose.
    apply Forall2_fmap_2, Forall_Forall2_diag.
    eapply Forall_impl; [exact Hwf|]. intros t [Hlen _]. simpl.
    apply interpolated_interp_rows; by rewrite ?Hlen.
  - destruct (interp2 M goods_idx bads_idx d) as [err|d'] eqn:Hi.
    + pose proof (proj2 (interp2_inr M goods_idx bads_idx d _)
                    (conj (conj Hg (conj Hc (conj Hb (or_introl Hr)))) eq_refl)).
      congruence.
    + apply interp2_inr in Hi as [_ ->]. eexists; split; [done|].
      split; [done|]. simpl. constructor; [|constructor].
      destruct d as [nc rs]. by apply interpolated_interp_rows.
Qed.

(** C3: whenever [_do_interp_dots] succeeds, the container keeps its class,
    its channel list and its bad list, the number of matrices (trials) and
    their shape, and every row whose index is not in [bads_idx]; a
    rectangular container stays rectangular. *)
Theorem do_interp_dots_frame i M goods_idx bads_idx i' :
  _do_interp_dots i M goods_idx bads_idx = (inr (), i') →
  chs i' = chs i ∧ bads i' = bads i ∧
  same_class (payload i) (payload i') ∧
  Forall2 (same_outside bads_idx) (slices (payload i)) (slices (payload i')) ∧
  (wf_payload (payload i) → wf_payload (payload i')).
Proof.
  unfold _do_interp_dots.
  destruct (payload i) as [d|e|d|ty] eqn:Hp; simpl; [| | |done].
  - destruct (interp2 M goods_idx bads_idx d) as [err|d'] eqn:Hi; [done|].
    intros [= <-]. apply interp2_inr in Hi as [(_&_&_&Hn) ->].
    repeat split; simpl; try done.
    + constructor; [|constructor]. destruct d.
      apply same_outside_interp_rows.
    + by apply Forall_length_interp_rows.
  - destruct (interp3 M goods_idx bads_idx e) as [err|e'] eqn:Hi; [done|].
    intros [= <-]. apply interp3_inr in Hi as [(_&_&_&Hn) ->].
    repeat split; simpl; try done.
    + rewrite <-list_fmap_compose.
      apply Forall2_fmap_2, Forall_Forall2_diag, Forall_true.
      intros t. apply same_outside_interp_rows3.
    + unfold wf3; simpl. intros Hwf. apply Forall_fmap.
      eapply Forall_impl; [exact Hwf|]. intros t [Hl Hr]; simpl.
      split; [by rewrite length_interp_rows3|].
      by apply Forall_length_interp_rows3.
  - destruct (interp2 M goods_idx bads_idx d) as [err|d'] eqn:Hi; [done|].
    intros [= <-]. apply interp2_inr in Hi as [(_&_&_&Hn) ->].
    repeat split; simpl; try done.
    + constructor; [|constructor]. destruct d.
      apply same_outside_interp_rows.
    + by apply Forall_length_interp_rows.
Qed.

(** C7: on an object of none of the three supported classes,
    [_do_interp_dots] raises the [ValueError] whose message names the type
    of the object, and the object is as it was. *)
Theorem do_interp_dots_unsupported i M goods_idx bads_idx :
  ¬ supported (payload i) →
  ∃ ty, payload i = OtherObject ty ∧
        _do_interp_dots i M goods_idx bads_idx
        = (inl (ValueError ("Inputs of type " +:+ ty +:+ " are not supported")),
           i).
Proof.
  intros Hns. unfold _do_interp_dots.
  destruct (payload i) as [d|e|d|ty]; simpl in Hns; try tauto.
  by exists ty.
Qed.

(** C9: with good indices disjoint from the bad ones, a second application
    of [_do_interp_dots] with the same matrix and indices has the outcome
    of the first and leaves the state the first one left. *)
Theorem do_interp_dots_twice i M goods_idx bads_idx :
  goods_idx ## bads_idx →
  _do_interp_dots (_do_interp_dots i M goods_idx bads_idx).2 M goods_idx bads_idx
  = _do_interp_dots i M goods_idx bads_idx.
Proof.
  intros Hdisj.
  unfold _do_interp_dots at 2 3.
  destruct (payload i) as [d|e|d|ty] eqn:Hp; simpl.
  - destruct (interp2 M goods_idx bads_idx d) as [err|d'] eqn:Hi; simpl.
    + unfold _do_interp_dots. by rewrite Hp, Hi.
    + unfold _do_interp_dots; simpl.
      by rewrite (interp2_twice _ _ _ _ _ Hdisj Hi).
  - destruct (interp3 M goods_idx bads_idx e) as [err|e'] eqn:Hi; simpl.
    + unfold _do_interp_dots. by rewrite Hp, Hi.
    + unfold _do_interp_dots; simpl.
      by rewrite (interp3_twice _ _ _ _ _ Hdisj Hi).
  - destruct (interp2 M goods_idx bads_idx d) as [err|d'] eqn:Hi; simpl.
    + unfold _do_interp_dots. by rewrite Hp, Hi.
    + unfold _do_interp_dots; simpl.
      by rewrite (interp2_twice _ _ _ _ _ Hdisj Hi).
  - unfold _do_interp_dots. by rewrite Hp.
Qed.
End ApplierClaims.

(** ** The applier run on sample containers *)

(** Disjointness and distinctness of explicit index lists. *)
Ltac solve_disjoint :=
  intros ? ?%list_elem_of_In ?%list_elem_of_In; simpl in *; lia.
Ltac solve_nodup :=
  repeat (apply NoDup_cons; split;
          [rewrite list_elem_of_In; simpl; lia|]); apply NoDup_nil_2.

Module ApplierRuns.
Import Samples.
#[local] Open Scope Z_scope.

Example dot_2x3_3x2 :
  dot (Arr2 3 [[1; 2; 3]; [4; 5; 6]]) (Arr2 2 [[1; 0]; [0; 1]; [1; 1]])
  = inr (Arr2 2 [[4; 5]; [10; 11]]).
Proof. vm_compute. reflexivity. Qed.

Example transpose_2x3 :
  transpose (Arr2 3 [[1; 2; 3]; [4; 5; 6]]) = Arr2 2 [[1; 4]; [2; 5]; [3; 6]].
Proof. vm_compute. reflexivity. Qed.

Example flat_stride_iadd_3x3 :
  flat_stride_iadd 4 100 (Arr2 3 [[1; 2; 3]; [4; 5; 6]; [7; 8; 9]])
  = Arr2 3 [[101; 2; 3]; [4; 105; 6]; [7; 8; 109]].
Proof. vm_compute. reflexivity. Qed.

Example set_rows_broadcasts_one_row :
  set_rows [0; 2]%nat (Arr2 2 [[7; 8]]) (Arr2 2 [[1; 2]; [3; 4]; [5; 6]])
  = inr (Arr2 2 [[7; 8]; [3; 4]; [7; 8]]).
Proof. vm_compute. reflexivity. Qed.

Example pick_types_eeg :
  pick_types eeg_then_meg false true [] = [0]%nat ∧
  pick_types eeg_then_meg true false [] = [1; 2]%nat ∧
  pick_types eeg_then_meg true false (bads eeg_then_meg) = [1]%nat.
Proof. vm_compute. done. Qed.

Example pick_channels_in_given_names :
  pick_channels ["MEG 0111"; "MEG 0112"] ["MEG 0112"] [] = [1]%nat.
Proof. vm_compute. reflexivity. Qed.

Example raw3_interpolated :
  _do_interp_dots raw3 sum_of_goods [0; 1]%nat [2]%nat
  = (inr (), Inst three_channels ["EEG 003"]
                  (RawData (Arr2 2 [[1; 2]; [3; 4]; [4; 6]]))).
Proof. vm_compute. reflexivity. Qed.

Example epochs3_interpolated :
  _do_interp_dots epochs3 sum_of_goods [0; 1]%nat [2]%nat
  = (inr (), Inst three_channels ["EEG 003"]
                  (EpochsData (Arr3 3 2 [[[1; 2]; [3; 4]; [4; 6]];
                                         [[10; 20]; [30; 40]; [40; 60]]]))).
Proof. vm_compute. reflexivity. Qed.

Example raw3_index_out_of_range :
  _do_interp_dots raw3 sum_of_goods [0; 1]%nat [3]%nat = (inl IndexError, raw3).
Proof. vm_compute. reflexivity. Qed.

Example raw3_misaligned :
  _do_interp_dots raw3 sum_of_goods [0]%nat [2]%nat = (inl ShapeMismatch, raw3).
Proof. vm_compute. reflexivity. Qed.

(** Without disjointness a second application changes the data again. *)
Example raw3_overlapping_not_idempotent :
  let once := _do_interp_dots raw3 (Arr2 1 [[2]]) [2]%nat [2]%nat in
  _do_interp_dots once.2 (Arr2 1 [[2]]) [2]%nat [2]%nat ≠ once.
Proof. vm_compute. discriminate. Qed.

Lemma do_interp_dots_interpolates_witness :
  ∃ i', _do_interp_dots epochs3 sum_of_goods [0; 1]%nat [2]%nat = (inr (), i') ∧
        same_class (payload epochs3) (payload i') ∧
        Forall2 (interpolated sum_of_goods [0; 1]%nat [2]%nat)
                (slices (payload epochs3)) (slices (payload i')).
Proof.
  apply do_interp_dots_interpolates.
  - exact I.
  - repeat constructor.
  - solve_nodup.
  - solve_disjoint.
  - repeat constructor.
  - repeat constructor.
  - reflexivity.
  - reflexivity.
Defined.

Lemma do_interp_dots_frame_witness :
  chs (set_payload raw3 (RawData (Arr2 2 [[1; 2]; [3; 4]; [4; 6]]))) = chs raw3 ∧
  bads (set_payload raw3 (RawData (Arr2 2 [[1; 2]; [3; 4]; [4; 6]]))) = bads raw3 ∧
  same_class (payload raw3) (RawData (Arr2 2 [[1; 2]; [3; 4]; [4; 6]])) ∧
  Forall2 (same_outside [2]%nat) (slices (payload raw3))
          (slices (RawData (Arr2 2 [[1; 2]; [3; 4]; [4; 6]]))) ∧
  (wf_payload (payload raw3) →
   wf_payload (RawData (Arr2 2 [[1; 2]; [3; 4]; [4; 6]]))).
Proof.
  apply (do_interp_dots_frame raw3 sum_of_goods [0; 1]%nat [2]%nat
           (set_payload raw3 (RawData (Arr2 2 [[1; 2]; [3; 4]; [4; 6]])))).
  vm_compute. reflexivity.
Defined.

Lemma do_interp_dots_unsupported_witness :
  ∃ ty, payload plain_object = OtherObject ty ∧
        _do_interp_dots plain_object sum_of_goods [0; 1]%nat [2]%nat
        = (inl (ValueError ("Inputs of type " +:+ ty +:+ " are not supported")),
           plain_object).
Proof. apply do_interp_dots_unsupported. simpl. tauto. Defined.

Example plain_object_message :
  _do_interp_dots plain_object sum_of_goods [0; 1]%nat [2]%nat
  = (inl (ValueError "Inputs of type <class 'dict'> are not supported"),
     plain_object).
Proof. vm_compute. reflexivity. Qed.

Lemma do_interp_dots_twice_witness :
  _do_interp_dots (_do_interp_dots evoked3 sum_of_goods [0; 1]%nat [2]%nat).2
    sum_of_goods [0; 1]%nat [2]%nat
  = _do_interp_dots evoked3 sum_of_goods [0; 1]%nat [2]%nat.
Proof. apply do_interp_dots_twice. solve_disjoint. Defined.
End ApplierRuns.

(** ** The diagonal of a square array, through its flat view *)

Section FlatFacts.
Context {A : Type}.

Lemma imap_concat_rows {B} (f : nat → A → B) nc (rs : list (list A)) :
  Forall (λ r, length r = nc) rs →
  imap f (concat rs) = concat (imap (λ i r, imap (λ j, f (i * nc + j)) r) rs).
Proof.
  intros Hrs. revert f.
  induction Hrs as [|r rs Hr Hrs IH]; intros f; [done|].
  simpl. rewrite imap_app, IH. f_equal.
  rewrite Hr. f_equal. apply imap_ext. intros i r' _. simpl.
  apply imap_ext. intros j x _. simpl. f_equal. lia.
Qed.

Lemma diag_stride (i j n : nat) :
  i < n → j < n → (i * n + j) `mod` (n + 1) = 0 ↔ i = j.
Proof.
  intros Hi Hj. split.
  - intros Hm.
    pose proof (Nat.div_mod_eq (i * n + j) (n + 1)) as Hd.
    rewrite Hm in Hd. set (q := (i * n + j) `div` (n + 1)) in Hd.
    assert (q = i) as Hq by nia. nia.
  - intros ->. replace (j * n + j) with (j * (n + 1)) by lia.
    apply Nat.Div0.mod_mul.
Qed.
End FlatFacts.

Section BuilderFacts.
Context {T : Type} `{FloatOps T}.
Implicit Types (a g : ndarray2 T).

Lemma unflatten_concat nc (rs : list (list T)) :
  Forall (λ r, length r = nc) rs →
  unflatten nc (length rs) (concat rs) = rs.
Proof.
  unfold unflatten. induction 1 as [|r rs Hr Hrs IH]; [done|].
  rewrite length_cons, <-cons_seq, fmap_cons, <-fmap_S_seq, <-list_fmap_compose.
  simpl concat. f_equal.
  - by rewrite drop_0, take_app_length'.
  - rewrite <-IH at 2.
    apply list_fmap_ext. intros _ i _. simpl. f_equal.
    rewrite drop_app_add'; [done|lia].
Qed.

Lemma unflatten_concat' nc n (rs : list (list T)) :
  n = length rs → Forall (λ r, length r = nc) rs →
  unflatten nc n (concat rs) = rs.
Proof. intros ->. apply unflatten_concat. Qed.

(** Adding to every [(n+1)]-th entry of the flat view of an [n] x [n]
    array adds to its diagonal. *)
Lemma flat_stride_iadd_diagonal (alpha : T) g :
  wf2 g → ncols g = nrows g →
  flat_stride_iadd (nrows g + 1) alpha g = add_alpha_I alpha g.
Proof.
  intros Hwf Hsq. unfold flat_stride_iadd, add_alpha_I. f_equal.
  rewrite (imap_concat_rows _ (ncols g)) by done.
  unfold nrows in *.
  rewrite unflatten_concat'.
  - apply imap_ext. intros i r Hi. simpl.
    apply imap_ext. intros j x Hj. simpl.
    apply lookup_lt_Some in Hj.
    rewrite (proj1 (Forall_lookup _ _) Hwf _ _ Hi) in Hj.
    apply lookup_lt_Some in Hi. rewrite Hsq in *.
    destruct (decide (i = j)) as [->|Hne].
    + rewrite decide_True; [done|]. by apply diag_stride.
    + rewrite decide_False; [done|]. by rewrite diag_stride.
  - by rewrite length_imap.
  - apply Forall_lookup. intros i r' Hi.
    apply list_lookup_imap_Some in Hi as (r & Hr & ->).
    rewrite length_imap. by apply (proj1 (Forall_lookup _ _) Hwf _ _ Hr).
Qed.

Lemma wf2_dot a b c : dot a b = inr c → wf2 c.
Proof.
  unfold dot. case_decide; [|done]. intros [= <-].
  apply Forall_length_matmul_rows.
Qed.

Lemma dot_shape a b c :
  dot a b = inr c → nrows c = nrows a ∧ ncols c = ncols b.
Proof.
  unfold dot. case_decide; [|done]. intros [= <-].
  unfold nrows; simpl. by rewrite length_matmul_rows.
Qed.

Lemma dot_inr a b :
  ncols a = nrows b → ∃ c, dot a b = inr c.
Proof. intros Hs. unfold dot. rewrite decide_True by done. by eexists. Qed.

Lemma legval2_shape a c :
  nrows (legval2 a c) = nrows a ∧ ncols (legval2 a c) = ncols a.
Proof. unfold legval2, nrows; simpl. by rewrite length_fmap. Qed.

Lemma wf2_legval2 a c : wf2 a → wf2 (legval2 a c).
Proof.
  unfold wf2, legval2; simpl. intros Hwf. apply Forall_fmap.
  eapply Forall_impl; [exact Hwf|]. intros r Hr; simpl.
  by rewrite length_fmap.
Qed.

Lemma transpose_shape a :
  nrows (transpose a) = ncols a ∧ ncols (transpose a) = nrows a.
Proof. unfold transpose, nrows; simpl. by rewrite length_fmap, length_seq. Qed.

Lemma normalized_shape a :
  nrows (normalized a) = nrows a ∧ ncols (normalized a) = ncols a.
Proof. unfold normalized, nrows; simpl. by rewrite length_fmap. Qed.
End BuilderFacts.

(** ** The builder *)

Section BuilderClaims.
Context {T : Type} `{FloatOps T}.
Variable pinv : ndarray2 T → ndarray2 T.
Implicit Types (σ : store T) (pf pt : ndarray2 T).

Lemma fresh_not_in σ : σ !! fresh (dom σ) = None.
Proof. apply not_elem_of_dom, is_fresh. Qed.

Lemma lookup_ne_fresh σ l a : σ !! l = Some a → l ≠ fresh (dom σ).
Proof. intros Hl ->. rewrite fresh_not_in in Hl. done. Qed.

(** The run of the builder: the two copies are normalized, the cosines and
    kernels are computed from them, and the store is the caller's store
    with the two copies added. *)
Lemma make_interpolation_matrix_run σ lf lt pf pt alpha :
  σ !! lf = Some pf → σ !! lt = Some pt →
  let l1 := fresh (dom σ) in
  let l2 := fresh (dom (<[l1 := pf]> σ)) in
  _make_interpolation_matrix pinv lf lt alpha σ
  = ((gg ← dot (normalized pf) (transpose (normalized pf));
      bg ← dot (normalized pt) (transpose (normalized pf));
      dot (G bg)
          (pinv match alpha with
                | Some alpha => flat_stride_iadd (nrows (G gg) + 1) alpha (G gg)
                | None => G gg
                end)),
     <[l2 := normalized pt]>
       (<[l1 := normalized pf]> (<[l2 := pt]> (<[l1 := pf]> σ)))).
Proof.
  intros Hf Ht l1 l2.
  pose proof (lookup_ne_fresh _ _ _ Hf) as Hf1.
  pose proof (lookup_ne_fresh _ _ _ Ht) as Ht1.
  assert (l1 ≠ l2) as H12.
  { apply (lookup_ne_fresh (<[l1 := pf]> σ) l1 pf). apply lookup_insert_eq. }
  unfold _make_interpolation_matrix, ndarray_copy, _normalize_vectors.
  unfold deref, alloc, assign, lift_res, mbind, prog_bind.
  rewrite Hf. fold l1.
  rewrite lookup_insert_ne, Ht by done. fold l2.
  rewrite lookup_insert_ne, lookup_insert_eq by done.
  rewrite lookup_insert_ne, lookup_insert_eq by done.
  rewrite lookup_insert_ne, lookup_insert_eq by done.
  rewrite lookup_insert_eq.
  fold (normalized pf). fold (normalized pt).
  destruct (dot (normalized pf) (transpose (normalized pf))); [done|].
  by destruct (dot (normalized pt) (transpose (normalized pf))).
Qed.

Lemma add_alpha_I_shape (alpha : T) g :
  nrows (add_alpha_I alpha g) = nrows g ∧ ncols (add_alpha_I alpha g) = ncols g.
Proof. unfold add_alpha_I, nrows; simpl. by rewrite length_imap. Qed.

Lemma wf2_add_alpha_I (alpha : T) g : wf2 g → wf2 (add_alpha_I alpha g).
Proof.
  unfold wf2, add_alpha_I; simpl. intros Hwf.
  apply Forall_lookup. intros i r' Hi.
  apply list_lookup_imap_Some in Hi as (r & Hr & ->).
  rewrite length_imap. by apply (proj1 (Forall_lookup _ _) Hwf _ _ Hr).
Qed.

(** C1: for position arrays [pos_from] (not empty) and [pos_to] with the
    same number of coordinates and no position of norm zero, and an [alpha]
    that is not [None], the builder returns
    [G(to' . from'^T) . pinv (G(from' . from'^T) + alpha I)], where [from']
    and [to'] are the positions divided by their norms and [G] is [_calc_g]
    with its defaults; given that [pinv] returns an [n] x [n] array on an
    [n] x [n] one, the result has [len(pos_to)] rows of [len(pos_from)]
    entries. *)
Theorem make_interpolation_matrix_spec σ lf lt pf pt (alpha : T) :
  (∀ g, wf2 g → 0 < nrows g → ncols g = nrows g →
        nrows (pinv g) = nrows g ∧ ncols (pinv g) = nrows g) →
  σ !! lf = Some pf → σ !! lt = Some pt →
  ncols pt = ncols pf → 0 < nrows pf →
  no_zero_norm pf → no_zero_norm pt →
  ∃ m, (_make_interpolation_matrix pinv lf lt (Some alpha) σ).1 = inr m ∧
       spline_matrix pinv pf pt alpha = inr m ∧
       nrows m = nrows pt ∧ ncols m = nrows pf ∧ wf2 m.
Proof.
  intros Hpinv Hf Ht Hc Hn _ _.
  rewrite (make_interpolation_matrix_run σ lf lt pf pt (Some alpha) Hf Ht).
  unfold spline_matrix. simpl.
  destruct (normalized_shape pf) as [Hfr Hfc].
  destruct (normalized_shape pt) as [Htr Htc].
  destruct (transpose_shape (normalized pf)) as [Hxr Hxc].
  destruct (dot_inr (normalized pf) (transpose (normalized pf)))
    as [gg Hgg]; [congruence|].
  destruct (dot_inr (normalized pt) (transpose (normalized pf)))
    as [bg Hbg]; [congruence|].
  rewrite Hgg, Hbg. unfold mbind, res_bind.
  destruct (dot_shape _ _ _ Hgg) as [Hggr Hggc].
  destruct (dot_shape _ _ _ Hbg) as [Hbgr Hbgc].
  pose proof (wf2_dot _ _ _ Hgg) as Hggwf.
  assert (wf2 (G gg)) as HGwf by (by apply wf2_legval2).
  destruct (legval2_shape gg (fzero :: g_factors default_stiffness
                                default_num_lterms)) as [HGr HGc].
  fold (_calc_g gg default_stiffness default_num_lterms) in HGr, HGc.
  fold (G gg) in HGr, HGc.
  destruct (legval2_shape bg (fzero :: g_factors default_stiffness
                                default_num_lterms)) as [HBr HBc].
  fold (_calc_g bg default_stiffness default_num_lterms) in HBr, HBc.
  fold (G bg) in HBr, HBc.
  rewrite flat_stride_iadd_diagonal by (done || congruence).
  destruct (add_alpha_I_shape alpha (G gg)) as [Har Hac].
  destruct (Hpinv (add_alpha_I alpha (G gg))) as [Hpr Hpc];
    [by apply wf2_add_alpha_I|lia|congruence|].
  destruct (dot_inr (G bg) (pinv (add_alpha_I alpha (G gg))))
    as [m Hm]; [congruence|].
  exists m. split; [done|]. split; [done|].
  destruct (dot_shape _ _ _ Hm) as [Hmr Hmc].
  split; [congruence|]. split; [congruence|]. by eapply wf2_dot.
Qed.

(** C8: the builder leaves every array of the caller's store as it was,
    [pos_from] and [pos_to] among them: what it normalizes are copies. *)
Theorem make_interpolation_matrix_keeps_inputs σ lf lt pf pt alpha :
  σ !! lf = Some pf → σ !! lt = Some pt →
  (_make_interpolation_matrix pinv lf lt alpha σ).2 !! lf = Some pf ∧
  (_make_interpolation_matrix pinv lf lt alpha σ).2 !! lt = Some pt ∧
  σ ⊆ (_make_interpolation_matrix pinv lf lt alpha σ).2.
Proof.
  intros Hf Ht.
  rewrite (make_interpolation_matrix_run σ lf lt pf pt alpha Hf Ht). simpl.
  assert (∀ l a, σ !! l = Some a →
    (<[fresh (dom (<[fresh (dom σ) := pf]> σ)) := normalized pt]>
       (<[fresh (dom σ) := normalized pf]>
          (<[fresh (dom (<[fresh (dom σ) := pf]> σ)) := pt]>
             (<[fresh (dom σ) := pf]> σ)))) !! l = Some a) as Hkeep.
  { intros l a Hl.
    pose proof (lookup_ne_fresh _ _ _ Hl) as Hl1.
    assert (l ≠ fresh (dom (<[fresh (dom σ) := pf]> σ))) as Hl2.
    { apply (lookup_ne_fresh _ _ a). by rewrite lookup_insert_ne. }
    by rewrite !lookup_insert_ne. }
  split; [by apply Hkeep|]. split; [by apply Hkeep|].
  apply map_subseteq_spec. exact Hkeep.
Qed.

(** Without the copy the normalization reaches the caller's array. *)
Lemma normalize_vectors_in_place σ l a :
  σ !! l = Some a → (_normalize_vectors l σ).2 !! l = Some (normalized a).
Proof.
  intros Hl. unfold _normalize_vectors, deref, assign, mbind, prog_bind.
  rewrite Hl. simpl. apply lookup_insert_eq.
Qed.
End BuilderClaims.

(** ** The kernel over the real numbers *)

Module KernelSeries.
Import Reals Lra RealArith.
#[local] Open Scope R_scope.

Lemma legendre_SS n x :
  legendre (S (S n)) x
  = ((2 * INR (S n) + 1) * x * legendre (S n) x - INR (S n) * legendre n x)
    / INR (S (S n)).
Proof. reflexivity. Qed.

Lemma Rsum_app l k : Rsum (l ++ k) = Rsum l + Rsum k.
Proof.
  unfold Rsum. induction l as [|a l IH]; simpl; [lra|]. rewrite IH. lra.
Qed.

Lemma legendre_series_snoc c a x :
  legendre_series (c ++ [a]) x
  = legendre_series c x + a * legendre (length c) x.
Proof.
  unfold legendre_series. rewrite imap_app, Rsum_app. simpl.
  rewrite Nat.add_0_r. lra.
Qed.

(** Clenshaw's recurrence keeps the value of the series: with the
    coefficients [p] still to be read, [c0] and [c1] stand for the terms
    of degrees [|p|] and [|p| + 1]. *)
Lemma legval_loop_series x p : ∀ nd c0 c1,
  nd = (length p + 2)%nat →
  (legval_loop x nd (reverse p) c0 c1).1
  + (legval_loop x nd (reverse p) c0 c1).2 * x
  = legendre_series p x + c0 * legendre (length p) x
    + c1 * legendre (S (length p)) x.
Proof.
  induction p as [|c p IH] using rev_ind; intros nd c0 c1 ->.
  - simpl. unfold legendre_series; simpl. lra.
  - rewrite reverse_snoc, length_app. simpl length.
    cbn [legval_loop].
    replace (length p + 1 + 2 - 1)%nat with (length p + 2)%nat by lia.
    rewrite IH by done.
    rewrite legendre_series_snoc.
    replace (length p + 1)%nat with (S (length p)) by lia.
    rewrite (legendre_SS (length p)).
    cbn [fsub fadd fmul fdiv fof_nat R_floatops R_scalar].
    replace (length p + 2 - 1)%nat with (S (length p)) by lia.
    replace (2 * (length p + 2) - 1)%nat with (2 * length p + 3)%nat by lia.
    replace (length p + 2)%nat with (S (S (length p))) by lia.
    rewrite !plus_INR, !mult_INR, !S_INR. simpl INR.
    pose proof (pos_INR (length p)).
    field. lra.
Qed.

(** [legval] computes the Legendre series of its coefficients. *)
Lemma legval_series x c :
  c ≠ [] → legval x c = legendre_series c x.
Proof.
  intros Hc. unfold legval.
  destruct c as [|a c] using rev_ind; [done|]. clear IHc Hc.
  rewrite reverse_snoc.
  destruct c as [|b c _] using rev_ind.
  - simpl. unfold legendre_series; simpl. lra.
  - rewrite reverse_snoc.
    pose proof (legval_loop_series x c (length ((c ++ [b]) ++ [a])) b a) as Hl.
    destruct (legval_loop x (length ((c ++ [b]) ++ [a])) (reverse c) b a)
      as [c0 c1].
    cbn [fst snd] in Hl. cbn [fadd fmul R_scalar]. rewrite Hl.
    + rewrite !legendre_series_snoc, length_app. simpl length.
      replace (length c + 1)%nat with (S (length c)) by lia. lra.
    + rewrite !length_app. simpl. lia.
Qed.

Lemma g_factor_coefficient m n : g_factor m n = spline_coefficient m n.
Proof.
  unfold g_factor, spline_coefficient.
  cbn [fdiv fmul fof_nat fpow fpi R_floatops R_scalar].
  rewrite !plus_INR, !mult_INR. simpl INR. unfold Rdiv.
  do 2 f_equal. ring.
Qed.

(** The coefficient list [[0] + factors] gives the series that starts at
    degree 1. *)
Lemma legendre_series_factors m L x :
  legendre_series (0 :: g_factors m L) x = spline_series m L x.
Proof.
  unfold legendre_series, spline_series, g_factors.
  rewrite imap_cons. unfold Rsum at 1. cbn [foldr]. fold (Rsum).
  rewrite Rmult_0_l, Rplus_0_l. f_equal.
  rewrite imap_fmap. rewrite <-(imap_const _ (seq 1 L)).
  apply imap_ext. intros k n Hk. unfold compose.
  apply lookup_seq in Hk as [-> _].
  by rewrite g_factor_coefficient.
Qed.

(** C4: over the real numbers, [_calc_g] with stiffness [m] and [L] terms
    gives at every entry [x] of the cosine matrix the sum for [n] from 1 to
    [L] of [(2n+1) / (n^m (n+1)^m 4 pi) P_n(x)], and [_calc_h] the same sum
    with [m - 1] for [m]; the term of degree 0 is absent from both. *)
Theorem calc_g_calc_h_series (cosang : ndarray2 R) (m : Z) (L : nat) :
  _calc_g cosang m L = map_entries (spline_series m L) cosang ∧
  _calc_h cosang m L = map_entries (spline_series (m - 1) L) cosang.
Proof.
  unfold _calc_g, _calc_h, legval2, map_entries.
  split; f_equal; apply list_fmap_ext; intros _ r _;
    apply list_fmap_ext; intros _ x _;
    (rewrite legval_series by done); apply legendre_series_factors.
Qed.

(** The first polynomials and a short series, as a check of the
    definitions. *)
Example legendre_2 x : legendre 2 x = (3 * x * x - 1) / 2.
Proof. simpl. lra. Qed.

Example legendre_3 x : legendre 3 x = (5 * x * x * x - 3 * x) / 2.
Proof. simpl. lra. Qed.

Example legval_three_terms x a b c :
  legval x [a; b; c] = a + b * x + c * ((3 * x * x - 1) / 2).
Proof. unfold legval. simpl. lra. Qed.
End KernelSeries.

(** ** The orchestrators *)

Section PickFacts.
Context {T : Type}.

Lemma length_mask_set picks vals (m : list bool) :
  length (mask_set picks vals m) = length m.
Proof.
  unfold mask_set. revert vals m.
  induction picks as [|p picks IH]; intros [|v vals] m; try done.
  simpl. rewrite IH. apply length_insert.
Qed.

Lemma pick_types_nil (i : inst T) meg eeg exclude :
  chs i = [] → pick_types i meg eeg exclude = [].
Proof. unfold pick_types. by intros ->. Qed.
End PickFacts.

Section EegClaims.
Context {T : Type} `{FloatOps T}.
Variable pinv : ndarray2 T → ndarray2 T.
Variable _fit_sphere : ndarray2 T → T * list T.
Implicit Types (i : inst T) (log : list log_record).

(** The guard of the EEG path looks at the length of the mask [bads_idx],
    which is the number of channels. *)
Lemma length_sel_bads_idx i :
  length (sel_bads_idx (eeg_select i)) = length (chs i).
Proof.
  unfold eeg_select, eeg_bads_mask; simpl.
  rewrite length_mask_set, length_replicate. unfold ch_names.
  by rewrite length_fmap.
Qed.

Lemma eeg_guard_passes i :
  pick_types i false true [] ≠ [] →
  ¬ (length (sel_picks (eeg_select i)) = 0
     ∨ length (sel_bads_idx (eeg_select i)) = 0).
Proof.
  intros Hp [Hl|Hl].
  - apply Hp. by apply nil_length_inv.
  - rewrite length_sel_bads_idx in Hl. apply Hp.
    apply pick_types_nil. by apply nil_length_inv.
Qed.

(** The EEG path past its guard. *)
Lemma interpolate_bads_eeg_run i log :
  pick_types i false true [] ≠ [] →
  let s := eeg_select i in
  let radius := (_fit_sphere (sel_pos_good s)).1 in
  let center := (_fit_sphere (sel_pos_good s)).2 in
  let warning :=
    if poor_fit radius center (sel_pos_good s) then [poor_fit_warning] else [] in
  let computing :=
    LogInfo ("Computing interpolation matrix from "
             +:+ pretty (nrows (sel_pos_good s)) +:+ " sensor positions") in
  let interpolating :=
    LogInfo ("Interpolating " +:+ pretty (nrows (sel_pos_bad s)) +:+ " sensors") in
  _interpolate_bads_eeg pinv _fit_sphere i log
  = match call_make_interpolation_matrix pinv (sel_pos_good s) (sel_pos_bad s) with
    | inl e => (inl e, (i, log ++ warning ++ [computing]))
    | inr interpolation =>
        ((_do_interp_dots i interpolation
            (flatnonzero (sel_goods_idx s)) (flatnonzero (sel_bads_idx s))).1,
         ((_do_interp_dots i interpolation
             (flatnonzero (sel_goods_idx s)) (flatnonzero (sel_bads_idx s))).2,
          log ++ warning ++ [computing; interpolating]))
    end.
Proof.
  intros Hp. cbv zeta. unfold _interpolate_bads_eeg.
  rewrite decide_False by (by apply eeg_guard_passes).
  generalize (eeg_select i). intros s.
  unfold poor_fit, mean_ratio.
  destruct (_fit_sphere (sel_pos_good s)) as [radius center]. cbn [fst snd].
  rewrite <-list_fmap_compose.
  change ((λ d, fdiv d radius)
          ∘ (λ r, fsqrt (fsum ((λ d, fmul d d) <$> zip_with fsub r center))))
    with (λ p, fdiv (distance_from center p) radius).
  destruct (fgt _ _);
    destruct (call_make_interpolation_matrix pinv (sel_pos_good s) (sel_pos_bad s))
      as [e|interpolation];
    rewrite <-?(assoc_L (++)); try done;
    by destruct (_do_interp_dots i interpolation _ _).
Qed.

(** The no-op cases that the two paths do have. *)
Lemma interpolate_bads_eeg_no_eeg i log :
  pick_types i false true [] = [] →
  _interpolate_bads_eeg pinv _fit_sphere i log = (inr (), (i, log)).
Proof.
  intros Hp. unfold _interpolate_bads_eeg. rewrite decide_True; [done|].
  left. unfold eeg_select; simpl. by rewrite Hp.
Qed.

(** C5 (EEG path, no bad channel): with two EEG channels and an empty bad
    list no channel is marked bad, yet the EEG path does not return at its
    guard: it goes on to the sphere fit and the builder, and the log grows
    by the line on the interpolation matrix. *)
Theorem interpolate_bads_eeg_without_bads_logs (p1 p2 : vec3 T)
    (d : sigdata T) log :
  let i := Inst [Chan "EEG 001" EEG p1; Chan "EEG 002" EEG p2] [] d in
  flatnonzero (sel_bads_idx (eeg_select i)) = [] ∧
  ∃ tail, (_interpolate_bads_eeg pinv _fit_sphere i log).2.2 = log ++ tail ∧
          LogInfo "Computing interpolation matrix from 2 sensor positions"
          ∈ tail.
Proof.
  intros i. split; [reflexivity|].
  rewrite (interpolate_bads_eeg_run i log) by done. cbv zeta.
  change (nrows (sel_pos_good (eeg_select i))) with 2.
  change (pretty 2) with "2".
  change ("Computing interpolation matrix from " +:+ "2" +:+ " sensor positions")
    with "Computing interpolation matrix from 2 sensor positions".
  destruct (call_make_interpolation_matrix pinv _ _) as [e|interpolation];
    cbn [fst snd]; (eexists; split; [done|]);
    rewrite !elem_of_app, !elem_of_cons; tauto.
Qed.
End EegClaims.

Section MegClaims.
Context {T : Type} `{Scalar T}.
Variable _map_meg_channels : inst T → list nat → list nat → string → ndarray2 T.
Implicit Types (i : inst T).

Lemma interpolate_bads_meg_noop i mode :
  (meg_select i).1.1 = [] ∨ (meg_select i).2 = [] →
  _interpolate_bads_meg _map_meg_channels i mode = (inr (), i).
Proof.
  unfold _interpolate_bads_meg.
  destruct (meg_select i) as [[picks_meg picks_good] picks_bad]; simpl.
  intros [-> | ->]; rewrite decide_True; auto.
Qed.

(** In the MEG path a bad list without MEG channel gives no bad pick. *)
Lemma meg_select_no_bads i : bads i = [] → (meg_select i).2 = [].
Proof. intros Hb. unfold meg_select. by rewrite Hb. Qed.
End MegClaims.

(** ** The orchestrators run on sample containers *)

Module OrchestratorRuns.
Import Samples.
#[local] Open Scope Z_scope.

(** C10 (MEG channels behind an EEG channel): the good picks index the
    full channel list, the bad picks the list of MEG channels only, so the
    row that is overwritten is that of the good channel [MEG 0111], and
    the bad channel [MEG 0112] keeps its samples. *)
Theorem interpolate_bads_meg_misaligned :
  meg_select eeg_then_meg = ([1; 2]%nat, [1]%nat, [1]%nat) ∧
  ch_names eeg_then_meg !! 1%nat = Some "MEG 0111" ∧
  _interpolate_bads_meg doubling eeg_then_meg "accurate"
  = (inr (), set_payload eeg_then_meg
               (RawData (Arr2 2 [[10; 11]; [40; 42]; [30; 31]]))).
Proof. vm_compute. done. Qed.

(** With the MEG channels first the two orderings agree. *)
Example interpolate_bads_meg_prefix :
  meg_select meg_then_eeg = ([0; 1]%nat, [0]%nat, [1]%nat) ∧
  _interpolate_bads_meg doubling meg_then_eeg "accurate"
  = (inr (), set_payload meg_then_eeg
               (RawData (Arr2 2 [[20; 21]; [40; 42]; [10; 11]]))).
Proof. vm_compute. done. Qed.
End OrchestratorRuns.

(** ** The builder and the EEG path on sample data *)

Module RealRuns.
Import Reals Lra RealArith.
#[local] Open Scope R_scope.

Lemma caller_store_from : caller_store !! 0%nat = Some good_positions.
Proof. unfold caller_store. apply lookup_insert_eq. Qed.

Lemma caller_store_to : caller_store !! 1%nat = Some bad_positions.
Proof.
  unfold caller_store. rewrite lookup_insert_ne by done.
  apply lookup_insert_eq.
Qed.

Lemma unit_norm_nonzero (r : list R) : vdot r r = 1 → fsqrt (vdot r r) ≠ fzero.
Proof. intros ->. cbn. rewrite sqrt_1. lra. Qed.

Lemma make_interpolation_matrix_spec_witness :
  ∃ m, (_make_interpolation_matrix pinv_stub 0%nat 1%nat (Some (1 / 100000))
          caller_store).1 = inr m ∧
       spline_matrix pinv_stub good_positions bad_positions (1 / 100000) = inr m ∧
       nrows m = nrows bad_positions ∧ ncols m = nrows good_positions ∧ wf2 m.
Proof.
  apply make_interpolation_matrix_spec.
  - intros g _ _ Hsq. unfold pinv_stub. by split.
  - exact caller_store_from.
  - exact caller_store_to.
  - reflexivity.
  - unfold nrows, good_positions; simpl. lia.
  - repeat constructor; apply unit_norm_nonzero; cbn; ring.
  - repeat constructor; apply unit_norm_nonzero; cbn; ring.
Defined.

Lemma make_interpolation_matrix_keeps_inputs_witness :
  (_make_interpolation_matrix pinv_stub 0%nat 1%nat (Some (1 / 100000))
     caller_store).2 !! 0%nat = Some good_positions ∧
  (_make_interpolation_matrix pinv_stub 0%nat 1%nat (Some (1 / 100000))
     caller_store).2 !! 1%nat = Some bad_positions ∧
  caller_store ⊆
    (_make_interpolation_matrix pinv_stub 0%nat 1%nat (Some (1 / 100000))
       caller_store).2.
Proof.
  apply make_interpolation_matrix_keeps_inputs.
  - exact caller_store_from.
  - exact caller_store_to.
Defined.

(** The selection of the EEG path on the sample recording. *)
Example real_raw_selection :
  flatnonzero (sel_goods_idx (eeg_select real_raw)) = [0; 1]%nat ∧
  flatnonzero (sel_bads_idx (eeg_select real_raw)) = [2]%nat ∧
  sel_pos_good (eeg_select real_raw) = good_positions ∧
  sel_pos_bad (eeg_select real_raw) = bad_positions.
Proof. repeat split; reflexivity. Qed.

(** On the unit sphere the fit is not poor. *)
Example unit_sphere_not_poor :
  poor_fit 1 [0; 0; 0] good_positions = false.
Proof.
  unfold poor_fit, mean_ratio, distance_from, fmean, fsum, good_positions.
  cbn. replace (0 + _ + _ + _) with 1 by (rewrite ?Rminus_0_r; ring).
  replace (0 + _ + _ + _) with 1 by (rewrite ?Rminus_0_r; ring).
  rewrite sqrt_1.
  replace (Rabs _) with 0.
  - destruct (Rgt_dec 0 (1 / 10)) as [Hgt|]; [lra|done].
  - replace (1 - _) with 0 by field. by rewrite Rabs_R0.
Qed.
End RealRuns.

(** * Further properties *)

(** ** The applier: when it succeeds, and what a failure leaves *)

Section ApplierMore.
Context {T : Type} `{Scalar T}.
Implicit Types (i : inst T) (M : ndarray2 T) (goods_idx bads_idx : list nat).

Lemma interp2_fails_or M goods_idx bads_idx d :
  (∃ d', interp2 M goods_idx bads_idx d = inr d')
  ↔ shapes_fit (nrows d) M goods_idx bads_idx.
Proof.
  split.
  - intros [d' Hd]. by apply interp2_inr in Hd as [? _].
  - intros Hs. eexists. apply interp2_inr. by split.
Qed.

Lemma interp3_fails_or M goods_idx bads_idx e :
  (∃ e', interp3 M goods_idx bads_idx e = inr e')
  ↔ shapes_fit3 (nchan3 e) M goods_idx bads_idx.
Proof.
  split.
  - intros [e' He]. by apply interp3_inr in He as [? _].
  - intros Hs. eexists. apply interp3_inr. by split.
Qed.

(** X1: for index arrays of non-negative integers, [_do_interp_dots]
    succeeds exactly on the calls that numpy accepts.  On a continuous or an
    averaged container these have every good and bad index inside the
    channel axis, as many matrix columns as good indices, and as many matrix
    rows as bad indices or a single one.  On a segmented container the
    contraction of [np.einsum] repeats an axis of length 1, so that a matrix
    of one column, or a single good index, is accepted as well.  An object
    of another class is never accepted.  Whenever the call raises, the
    container is as it was. *)
Theorem do_interp_dots_succeeds_iff i M goods_idx bads_idx :
  ((_do_interp_dots i M goods_idx bads_idx).1 = inr ()
   ↔ accepted (payload i) M goods_idx bads_idx)
  ∧ (∀ e, (_do_interp_dots i M goods_idx bads_idx).1 = inl e →
          (_do_interp_dots i M goods_idx bads_idx).2 = i).
Proof.
  unfold _do_interp_dots.
  destruct (payload i) as [d|e|d|ty] eqn:Hp; simpl.
  - pose proof (interp2_fails_or M goods_idx bads_idx d) as Hiff.
    destruct (interp2 M goods_idx bads_idx d) as [err|d']; simpl.
    + split; [|done]. split; [done|]. intros Hs.
      apply Hiff in Hs as [? ?]. done.
    + split; [|done]. split; [|done]. intros _.
      apply Hiff. by eexists.
  - pose proof (interp3_fails_or M goods_idx bads_idx e) as Hiff.
    destruct (interp3 M goods_idx bads_idx e) as [err|e']; simpl.
    + split; [|done]. split; [done|]. intros Hs.
      apply Hiff in Hs as [? ?]. done.
    + split; [|done]. split; [|done]. intros _.
      apply Hiff. by eexists.
  - pose proof (interp2_fails_or M goods_idx bads_idx d) as Hiff.
    destruct (interp2 M goods_idx bads_idx d) as [err|d']; simpl.
    + split; [|done]. split; [done|]. intros Hs.
      apply Hiff in Hs as [? ?]. done.
    + split; [|done]. split; [|done]. intros _.
      apply Hiff. by eexists.
  - split; [|done]. by split.
Qed.

Lemma set_payload_same i p : payload i = p → set_payload i p = i.
Proof. destruct i. simpl. by intros ->. Qed.

Lemma do_interp_dots_no_bads_unchanged i M goods_idx :
  supported (payload i) →
  Forall (λ k, k < n_channels (payload i)) goods_idx →
  ncols M = length goods_idx → nrows M = 0 →
  _do_interp_dots i M goods_idx [] = (inr (), i).
Proof.
  intros Hsup Hg Hc Hr. unfold _do_interp_dots.
  assert (∀ n, shapes_fit n M goods_idx [] ↔ Forall (λ k, k < n) goods_idx)
    as Hfit.
  { intros n. unfold shapes_fit. simpl. intuition. }
  destruct (payload i) as [d|e|d|ty] eqn:Hp; simpl in *; [| | |done].
  - rewrite (proj2 (interp2_inr M goods_idx [] d _)
               (conj (proj2 (Hfit _) Hg) eq_refl)).
    f_equal. apply set_payload_same. rewrite Hp. by destruct d.
  - rewrite (interp3_fit M goods_idx [] e (proj2 (Hfit _) Hg)).
    f_equal. apply set_payload_same. rewrite Hp. destruct e; simpl.
    do 2 f_equal. unfold interp_rows; simpl. symmetry. apply list_fmap_id.
  - rewrite (proj2 (interp2_inr M goods_idx [] d _)
               (conj (proj2 (Hfit _) Hg) eq_refl)).
    f_equal. apply set_payload_same. rewrite Hp. by destruct d.
Qed.











(** X5: with a matrix of one column per good index, the applier does to
    each trial of a segmented container what it does to a continuous
    recording holding that trial alone.  (Without that condition the two
    branches part: a contraction that repeats an axis of length 1 succeeds
    where the product of the continuous branch raises.) *)
Theorem do_interp_dots_epochs_trialwise c bd e i' M goods_idx bads_idx :
  wf3 e → ncols M = length goods_idx →
  _do_interp_dots (Inst c bd (EpochsData e)) M goods_idx bads_idx = (inr (), i') →
  ∃ e', payload i' = EpochsData e' ∧
        Forall2 (λ t t',
          _do_interp_dots (Inst c bd (RawData (Arr2 (nsamp3 e) t)))
                          M goods_idx bads_idx
          = (inr (), Inst c bd (RawData (Arr2 (nsamp3 e) t'))))
          (trials e) (trials e').
Proof.
  intros Hwf Hc. unfold _do_interp_dots at 1. simpl.
  destruct (interp3 M goods_idx bads_idx e) as [?|e'] eqn:Hi; [done|].
  intros [= <-]. exists e'. split; [done|].
  apply interp3_inr in Hi as [(Hg & _ & Hb & Hn) ->]. simpl.
  apply Forall2_fmap_r, Forall_Forall2_diag.
  eapply Forall_impl; [exact Hwf|]. intros t [Hlen _]. simpl.
  unfold _do_interp_dots. simpl.
  assert (shapes_fit (nrows (Arr2 (nsamp3 e) t)) M goods_idx bads_idx) as Hs'.
  { unfold nrows; simpl. rewrite Hlen. by repeat split. }
  rewrite (proj2 (interp2_inr M goods_idx bads_idx (Arr2 (nsamp3 e) t) _)
             (conj Hs' eq_refl)).
  simpl. by rewrite interp_rows3_fit.
Qed.
End ApplierMore.

(** ** Entries, transposition and symmetry *)

Section EntryFacts.
Context {T : Type} `{Scalar T}.
Implicit Types (a b c : ndarray2 T).

Lemma list_as_lookups {A} (d : A) (r : list A) :
  (λ k, default d (r !! k)) <$> seq 0 (length r) = r.
Proof.
  apply list_eq. intros k. rewrite list_lookup_fmap.
  destruct (decide (k < length r)) as [Hk|Hk].
  - rewrite lookup_seq_lt by done. simpl.
    destruct (lookup_lt_is_Some_2 r k Hk) as [x Hx]. by rewrite Hx.
  - rewrite lookup_seq_ge by lia. by rewrite lookup_ge_None_2 by lia.
Qed.

Lemma entry_Some a i j x :
  entry a i j = Some x ↔ ∃ r, rows a !! i = Some r ∧ r !! j = Some x.
Proof.
  unfold entry. destruct (rows a !! i) as [r|]; simpl.
  - split; [by exists r|]. by intros (? & [= <-] & ?).
  - split; [done|]. by intros (? & ? & ?).
Qed.

Lemma entry_is_Some a i j :
  wf2 a → i < nrows a → j < ncols a → is_Some (entry a i j).
Proof.
  intros Hwf Hi Hj. unfold entry.
  destruct (lookup_lt_is_Some_2 (rows a) i Hi) as [r Hr]. rewrite Hr. simpl.
  apply lookup_lt_is_Some_2.
  by rewrite (proj1 (Forall_lookup _ _) Hwf _ _ Hr).
Qed.

Lemma entry_None_row a i j : nrows a ≤ i → entry a i j = None.
Proof. intros Hi. unfold entry. by rewrite lookup_ge_None_2. Qed.

Lemma entry_None_col a i j : wf2 a → ncols a ≤ j → entry a i j = None.
Proof.
  intros Hwf Hj. unfold entry. destruct (rows a !! i) as [r|] eqn:Hr; [|done].
  simpl. apply lookup_ge_None_2.
  by rewrite (proj1 (Forall_lookup _ _) Hwf _ _ Hr).
Qed.

(** Two rectangular arrays of the same shape with the same entries are
    equal. *)
Lemma ndarray2_ext a b :
  wf2 a → wf2 b → ncols a = ncols b → nrows a = nrows b →
  (∀ i j, entry a i j = entry b i j) → a = b.
Proof.
  destruct a as [nc ra], b as [nc' rb]. unfold wf2, nrows; simpl.
  intros Hwa Hwb -> Hn He. f_equal.
  apply list_eq. intros i.
  destruct (ra !! i) as [r|] eqn:Hr, (rb !! i) as [r'|] eqn:Hr'.
  - f_equal. apply list_eq. intros j.
    specialize (He i j). unfold entry in He. simpl in He.
    by rewrite Hr, Hr' in He.
  - apply lookup_lt_Some in Hr. apply lookup_ge_None in Hr'. lia.
  - apply lookup_lt_Some in Hr'. apply lookup_ge_None in Hr. lia.
  - done.
Qed.

Lemma wf2_transpose a : wf2 (transpose a).
Proof.
  unfold wf2, transpose; simpl. apply Forall_fmap, Forall_true. intros j.
  simpl. unfold column, nrows. by rewrite length_fmap.
Qed.

Lemma entry_transpose a i j :
  wf2 a → entry (transpose a) i j = entry a j i.
Proof.
  intros Hwf. unfold entry at 1, transpose. simpl.
  rewrite list_lookup_fmap.
  destruct (decide (i < ncols a)) as [Hi|Hi].
  - rewrite lookup_seq_lt by done. simpl. unfold column.
    rewrite list_lookup_fmap. unfold entry.
    destruct (rows a !! j) as [r|] eqn:Hr; [|done]. simpl.
    assert (i < length r) as Hir
      by by rewrite (proj1 (Forall_lookup _ _) Hwf _ _ Hr).
    destruct (lookup_lt_is_Some_2 r i Hir) as [x Hx]. by rewrite Hx.
  - rewrite lookup_seq_ge by lia. simpl. symmetry.
    apply entry_None_col; [done|lia].
Qed.

(** [a.T.T] is [a]. *)
Lemma transpose_involutive a : wf2 a → transpose (transpose a) = a.
Proof.
  intros Hwf. apply ndarray2_ext; [apply wf2_transpose|done| | |].
  - unfold transpose, nrows; simpl. by rewrite length_fmap, length_seq.
  - unfold transpose, nrows; simpl.
    by rewrite !length_fmap, !length_seq.
  - intros i j. rewrite !entry_transpose; [done|done|apply wf2_transpose].
Qed.

Lemma symmetric_transpose a : wf2 a → symmetric a → transpose a = a.
Proof.
  intros Hwf [Hsq Hs]. apply ndarray2_ext; [apply wf2_transpose|done| | |].
  - unfold transpose; simpl. done.
  - unfold transpose, nrows; simpl. by rewrite length_fmap, length_seq.
  - intros i j. by rewrite entry_transpose.
Qed.

Lemma vdot_comm (u v : list T) :
  (∀ x y : T, fmul x y = fmul y x) → vdot u v = vdot v u.
Proof.
  intros Hc. unfold vdot. f_equal. rewrite <-zip_with_flip.
  apply zip_with_ext; [|done|done]. intros x y. apply Hc.
Qed.

Lemma column_transpose a j r :
  wf2 a → rows a !! j = Some r → column j (rows (transpose a)) = r.
Proof.
  intros Hwf Hr. unfold column, transpose. simpl.
  rewrite <-list_fmap_compose.
  rewrite <-(list_as_lookups fzero r) at 1.
  rewrite (proj1 (Forall_lookup _ _) Hwf _ _ Hr).
  apply list_fmap_ext. intros _ k _. simpl. unfold column.
  by rewrite list_lookup_fmap, Hr.
Qed.

(** The entries of [a . a^T] are the products of the rows of [a]. *)
Lemma entry_gram a c i j ri rj :
  wf2 a → dot a (transpose a) = inr c →
  rows a !! i = Some ri → rows a !! j = Some rj →
  entry c i j = Some (vdot ri rj).
Proof.
  intros Hwf Hd Hi Hj. unfold dot in Hd. case_decide; [|done].
  injection Hd as <-. unfold entry, matmul_rows. simpl.
  rewrite list_lookup_fmap, Hi. simpl.
  rewrite list_lookup_fmap, lookup_seq_lt.
  - simpl. do 2 f_equal. exact (column_transpose a j rj Hwf Hj).
  - by apply lookup_lt_Some in Hj.
Qed.
End EntryFacts.

(** ** The kernel and the regularized matrix are symmetric *)

Section KernelMore.
Context {T : Type} `{FloatOps T}.
Implicit Types (a b c g : ndarray2 T).

Lemma entry_legval2 a cs i j :
  entry (legval2 a cs) i j = (λ x, legval x cs) <$> entry a i j.
Proof.
  unfold entry, legval2. simpl. rewrite list_lookup_fmap.
  destruct (rows a !! i) as [r|]; [|done]. simpl.
  by rewrite list_lookup_fmap.
Qed.

Lemma entry_add_alpha_I (alpha : T) g i j :
  entry (add_alpha_I alpha g) i j
  = (λ x, if decide (i = j) then fadd x alpha else x) <$> entry g i j.
Proof.
  unfold entry, add_alpha_I. simpl. rewrite list_lookup_imap.
  destruct (rows g !! i) as [r|]; [|done]. simpl.
  by rewrite list_lookup_imap.
Qed.

Lemma symmetric_legval2 a cs : symmetric a → symmetric (legval2 a cs).
Proof.
  intros [Hsq Hs]. split.
  - destruct (legval2_shape a cs) as [-> ->]. done.
  - intros i j. by rewrite !entry_legval2, Hs.
Qed.

Lemma symmetric_add_alpha_I (alpha : T) g :
  symmetric g → symmetric (add_alpha_I alpha g).
Proof.
  intros [Hsq Hs]. split.
  - unfold add_alpha_I, nrows in *; simpl. by rewrite length_imap.
  - intros i j. rewrite !entry_add_alpha_I, Hs.
    destruct (entry g j i); [|done]. simpl.
    by destruct (decide (i = j)); subst;
      [rewrite decide_True|rewrite decide_False].
Qed.

Lemma symmetric_gram a c :
  (∀ x y : T, fmul x y = fmul y x) → wf2 a →
  dot a (transpose a) = inr c → symmetric c.
Proof.
  intros Hc Hwf Hd.
  destruct (dot_shape _ _ _ Hd) as [Hr Hcol].
  destruct (transpose_shape a) as [Htr Htc].
  pose proof (wf2_dot _ _ _ Hd) as Hwc.
  split; [congruence|]. intros i j.
  destruct (rows a !! i) as [ri|] eqn:Hi; last first.
  { apply lookup_ge_None in Hi. fold (nrows a) in Hi.
    rewrite entry_None_row by lia.
    symmetry. apply entry_None_col; [done|lia]. }
  destruct (rows a !! j) as [rj|] eqn:Hj; last first.
  { apply lookup_ge_None in Hj. fold (nrows a) in Hj.
    rewrite (entry_None_row c j) by lia.
    apply entry_None_col; [done|lia]. }
  rewrite (entry_gram a c i j ri rj), (entry_gram a c j i rj ri) by done.
  f_equal. by apply vdot_comm.
Qed.

(** X6: for a rectangular position array and a commutative product, the
    cosine matrix [pos . pos^T], the kernel [_calc_g] of it and the kernel
    after [flat[::n+1] += alpha] are all symmetric: the matrix handed to the
    pseudo-inverse equals its transpose. *)
Theorem regularized_kernel_symmetric a (alpha : T) m L :
  (∀ x y : T, fmul x y = fmul y x) → wf2 a →
  ∃ c, dot a (transpose a) = inr c ∧
       symmetric c ∧ symmetric (_calc_g c m L) ∧
       transpose (flat_stride_iadd (nrows (_calc_g c m L) + 1) alpha
                                   (_calc_g c m L))
       = flat_stride_iadd (nrows (_calc_g c m L) + 1) alpha (_calc_g c m L).
Proof.
  intros Hc Hwf.
  destruct (dot_inr a (transpose a)) as [c Hd].
  { by destruct (transpose_shape a) as [-> _]. }
  exists c. split; [done|].
  pose proof (symmetric_gram a c Hc Hwf Hd) as Hsc.
  pose proof (wf2_dot _ _ _ Hd) as Hwc.
  assert (symmetric (_calc_g c m L)) as Hsg by by apply symmetric_legval2.
  assert (wf2 (_calc_g c m L)) as Hwg by by apply wf2_legval2.
  split; [done|]. split; [done|].
  rewrite flat_stride_iadd_diagonal by (done || apply Hsg).
  apply symmetric_transpose.
  - by apply wf2_add_alpha_I.
  - by apply symmetric_add_alpha_I.
Qed.

(** X7: the kernel is taken entry by entry, so it commutes with
    transposition: [_calc_g(a.T) = _calc_g(a).T], and the same for
    [_calc_h]. *)
Theorem calc_g_calc_h_transpose a m L :
  wf2 a →
  _calc_g (transpose a) m L = transpose (_calc_g a m L) ∧
  _calc_h (transpose a) m L = transpose (_calc_h a m L).
Proof.
  intros Hwf. unfold _calc_g, _calc_h.
  assert (∀ cs, legval2 (transpose a) cs = transpose (legval2 a cs)) as Ht.
  { intros cs. apply ndarray2_ext.
    - apply wf2_legval2, wf2_transpose.
    - apply wf2_transpose.
    - unfold legval2, transpose, nrows; simpl. by rewrite length_fmap.
    - unfold legval2, transpose, nrows; simpl.
      by rewrite !length_fmap, !length_seq.
    - intros i j. rewrite entry_legval2, !entry_transpose, entry_legval2;
        [done|by apply wf2_legval2|done]. }
  by rewrite !Ht.
Qed.
End KernelMore.

(** ** The kernel over the real numbers: special directions and factors *)

Module KernelValues.
Import Reals Lra RealArith KernelSeries.
#[local] Open Scope R_scope.

Lemma legendre_at_1_pair n : legendre n 1 = 1 ∧ legendre (S n) 1 = 1.
Proof.
  induction n as [|n [IH0 IH1]]; [by split|]. split; [done|].
  rewrite legendre_SS, IH0, IH1, !S_INR.
  pose proof (pos_INR n). field. lra.
Qed.

Lemma legendre_at_1 n : legendre n 1 = 1.
Proof. apply legendre_at_1_pair. Qed.

Lemma legendre_parity_pair n x :
  legendre n (- x) = (-1) ^ n * legendre n x ∧
  legendre (S n) (- x) = (-1) ^ S n * legendre (S n) x.
Proof.
  induction n as [|n [IH0 IH1]].
  - split; simpl; lra.
  - split; [done|].
    rewrite !legendre_SS, IH0, IH1, !S_INR. simpl pow.
    pose proof (pos_INR n). field. lra.
Qed.

Lemma legendre_parity n x : legendre n (- x) = (-1) ^ n * legendre n x.
Proof. apply legendre_parity_pair. Qed.

Lemma entry_calc_g (cosang : ndarray2 R) m L i j :
  entry (_calc_g cosang m L) i j = spline_series m L <$> entry cosang i j.
Proof.
  unfold _calc_g. rewrite entry_legval2.
  destruct (entry cosang i j) as [x|]; [|done]. simpl.
  by rewrite legval_series, legendre_series_factors.
Qed.

(** X8: where the cosine is 1 (the same direction) the kernel [_calc_g] is
    the sum of its coefficients, and where it is -1 (opposite directions) it
    is their alternating sum, because [P_n(1) = 1] and
    [P_n(-1) = (-1)^n]. *)
Theorem calc_g_at_poles (cosang : ndarray2 R) m L i j :
  (entry cosang i j = Some 1 →
   entry (_calc_g cosang m L) i j
   = Some (Rsum (spline_coefficient m <$> seq 1 L))) ∧
  (entry cosang i j = Some (-1) →
   entry (_calc_g cosang m L) i j
   = Some (Rsum ((λ n, (-1) ^ n * spline_coefficient m n) <$> seq 1 L))).
Proof.
  rewrite entry_calc_g. split; intros ->; simpl; f_equal;
    unfold spline_series; f_equal; apply list_fmap_ext; intros _ n _.
  - rewrite legendre_at_1. lra.
  - replace (-1) with (- (1)) at 1 by lra.
    rewrite legendre_parity, legendre_at_1. lra.
Qed.

(** X9: every factor of [_calc_g] is positive, and the factor of degree [n]
    of [_calc_h] is [n (n + 1)] times that of [_calc_g]. *)
Theorem g_factor_positive_and_h_factor (m : Z) (n : nat) :
  (1 ≤ n)%nat →
  0 < g_factor m n ∧
  g_factor (m - 1) n = INR n * (INR n + 1) * g_factor m n.
Proof.
  intros Hn. rewrite !g_factor_coefficient. unfold spline_coefficient.
  assert (0 < INR n) as Hpos by (apply lt_0_INR; lia).
  assert (0 < INR n + 1) as Hpos1 by lra.
  pose proof (powerRZ_lt (INR n) m Hpos) as Hp.
  pose proof (powerRZ_lt (INR n + 1) m Hpos1) as Hp1.
  pose proof PI_RGT_0 as Hpi.
  split.
  - apply Rdiv_lt_0_compat; [lra|].
    apply Rmult_lt_0_compat; [by apply Rmult_lt_0_compat|lra].
  - replace m with (m - 1 + 1)%Z at 3 4 by lia.
    rewrite !powerRZ_add by lra. rewrite !powerRZ_1.
    pose proof (powerRZ_lt (INR n) (m - 1) Hpos).
    pose proof (powerRZ_lt (INR n + 1) (m - 1) Hpos1).
    field. repeat split; lra.
Qed.
End KernelValues.

(** ** The builder: what its result depends on *)

Section BuilderMore.
Context {T : Type} `{FloatOps T}.
Variable pinv : ndarray2 T → ndarray2 T.
Implicit Types (σ : store T) (pf pt : ndarray2 T).

Lemma flat_stride_iadd_zero step (g : ndarray2 T) :
  (∀ x : T, fadd x fzero = x) → wf2 g → flat_stride_iadd step fzero g = g.
Proof.
  intros Hz Hwf. destruct g as [nc rs]. unfold flat_stride_iadd, nrows. simpl.
  f_equal.
  assert (imap (λ (p : nat) (x : T),
                  if decide (p `mod` step = 0) then fadd x fzero else x)
               (concat rs) = concat rs) as ->.
  { apply list_eq. intros k. rewrite list_lookup_imap.
    destruct (concat rs !! k) as [x|]; [|done]. simpl.
    case_decide; by rewrite ?Hz. }
  by apply unflatten_concat.
Qed.

(** X10: [alpha = None] stands for [alpha = 0].  Given that adding zero
    changes no number, the builder run without [alpha] and the builder run
    with an [alpha] of zero have the same outcome and leave the same
    store: the strided update of the flat view with zero gives back the
    kernel. *)
Theorem make_interpolation_matrix_none_is_zero σ lf lt pf pt :
  (∀ x : T, fadd x fzero = x) →
  σ !! lf = Some pf → σ !! lt = Some pt →
  _make_interpolation_matrix pinv lf lt None σ
  = _make_interpolation_matrix pinv lf lt (Some fzero) σ.
Proof.
  intros Hz Hf Ht.
  rewrite (make_interpolation_matrix_run pinv σ lf lt pf pt None Hf Ht).
  rewrite (make_interpolation_matrix_run pinv σ lf lt pf pt (Some fzero) Hf Ht).
  cbv zeta. f_equal.
  destruct (dot (normalized pf) (transpose (normalized pf))) as [?|gg] eqn:Hgg;
    [done|]. simpl.
  destruct (dot (normalized pt) (transpose (normalized pf))) as [?|bg];
    [done|]. simpl.
  rewrite flat_stride_iadd_zero; [done|done|].
  apply wf2_legval2. by eapply wf2_dot.
Qed.

Lemma dot_row a b c j u :
  dot a b = inr c → rows a !! j = Some u →
  rows c !! j = Some (row_times (ncols b) u (rows b)) ∧
  dot (Arr2 (ncols a) [u]) b
  = inr (Arr2 (ncols b) [row_times (ncols b) u (rows b)]).
Proof.
  unfold dot. simpl. case_decide; [|done]. intros [= <-] Hu. simpl.
  unfold matmul_rows. by rewrite list_lookup_fmap, Hu.
Qed.

(** X11: each row of the interpolation matrix is computed from its own
    target position and the source positions alone: row [j] of the matrix
    for all the targets is the one row of the matrix built for target [j]
    by itself. *)
Theorem make_interpolation_matrix_rowwise σ σ' lf lt lf' lt' pf pt t j alpha M :
  σ !! lf = Some pf → σ !! lt = Some pt →
  σ' !! lf' = Some pf → σ' !! lt' = Some (Arr2 (ncols pt) [t]) →
  rows pt !! j = Some t →
  (_make_interpolation_matrix pinv lf lt alpha σ).1 = inr M →
  ∃ r, rows M !! j = Some r ∧
       (_make_interpolation_matrix pinv lf' lt' alpha σ').1
       = inr (Arr2 (ncols M) [r]).
Proof.
  intros Hf Ht Hf' Ht' Hj.
  rewrite (make_interpolation_matrix_run pinv σ lf lt pf pt alpha Hf Ht).
  rewrite (make_interpolation_matrix_run pinv σ' lf' lt' _ _ alpha Hf' Ht').
  cbn [fst].
  destruct (dot (normalized pf) (transpose (normalized pf))) as [?|gg];
    [done|]. simpl.
  destruct (dot (normalized pt) (transpose (normalized pf))) as [?|bg] eqn:Hbg;
    [done|]. simpl.
  assert (rows (normalized pt) !! j = Some (normalize_row t)) as Hnj.
  { unfold normalized. simpl. by rewrite list_lookup_fmap, Hj. }
  destruct (dot_row _ _ _ j _ Hbg Hnj) as [Hbj Hone].
  change (normalized (Arr2 (ncols pt) [t]))
    with (Arr2 (ncols (normalized pt)) [normalize_row t]).
  rewrite Hone. simpl. intros HM.
  assert (rows (G bg) !! j
          = Some ((λ x, legval x (fzero :: g_factors default_stiffness
                                               default_num_lterms))
                  <$> row_times (ncols (transpose (normalized pf)))
                        (normalize_row t)
                        (rows (transpose (normalized pf))))) as HGj.
  { unfold G, _calc_g, legval2. simpl. by rewrite list_lookup_fmap, Hbj. }
  destruct (dot_row _ _ _ j _ HM HGj) as [HMj Hlast].
  eexists. split; [exact HMj|].
  destruct (dot_shape _ _ _ HM) as [_ ->].
  destruct (dot_shape _ _ _ Hbg) as [_ Hbc].
  assert (ncols (G bg) = ncols (transpose (normalized pf))) as HGc.
  { unfold G, _calc_g, legval2. simpl. done. }
  rewrite HGc in Hlast. exact Hlast.
Qed.

(** X12: position arrays with different numbers of coordinates make the
    product [pos_to . pos_from^T] fail: the builder raises the shape error,
    and the caller's arrays are still untouched. *)
Theorem make_interpolation_matrix_dimension_mismatch σ lf lt pf pt alpha :
  σ !! lf = Some pf → σ !! lt = Some pt → ncols pt ≠ ncols pf →
  (_make_interpolation_matrix pinv lf lt alpha σ).1 = inl ShapeMismatch ∧
  σ ⊆ (_make_interpolation_matrix pinv lf lt alpha σ).2.
Proof.
  intros Hf Ht Hne.
  rewrite (make_interpolation_matrix_run pinv σ lf lt pf pt alpha Hf Ht).
  cbn [fst snd]. split.
  - destruct (dot_inr (normalized pf) (transpose (normalized pf))) as [gg ->].
    { by destruct (transpose_shape (normalized pf)) as [-> _]. }
    simpl.
    assert (dot (normalized pt) (transpose (normalized pf))
            = inl ShapeMismatch) as ->; [|done].
    unfold dot.
    destruct (transpose_shape (normalized pf)) as [Hx _].
    destruct (normalized_shape pf) as [_ Hfc].
    destruct (normalized_shape pt) as [_ Htc].
    rewrite decide_False; [done|]. congruence.
  - apply map_subseteq_spec. intros l a Hl.
    pose proof (lookup_ne_fresh _ _ _ Hl) as Hl1.
    assert (l ≠ fresh (dom (<[fresh (dom σ) := pf]> σ))) as Hl2.
    { apply (lookup_ne_fresh _ _ a). by rewrite lookup_insert_ne. }
    by rewrite !lookup_insert_ne.
Qed.
End BuilderMore.

(** ** The builder over the real numbers: the scale of the positions *)

Module BuilderScale.
Import Reals Lra RealArith RealNotions.
#[local] Open Scope R_scope.

Lemma foldl_vdot_scale k (r : list R) acc :
  foldl Rplus (k * k * acc) (zip_with Rmult (Rmult k <$> r) (Rmult k <$> r))
  = k * k * foldl Rplus acc (zip_with Rmult r r).
Proof.
  revert acc. induction r as [|x r IH]; intros acc; [done|]. simpl.
  rewrite <-IH. f_equal. lra.
Qed.

Lemma vdot_scale k (r : list R) :
  vdot (Rmult k <$> r) (Rmult k <$> r) = k * k * vdot r r.
Proof.
  unfold vdot. cbn [fzero fadd fmul R_scalar].
  rewrite <-foldl_vdot_scale. f_equal. lra.
Qed.

Lemma foldl_square_nonneg (r : list R) acc :
  0 <= acc → 0 <= foldl Rplus acc (zip_with Rmult r r).
Proof.
  revert acc. induction r as [|x r IH]; intros acc Hacc; [done|]. simpl.
  apply IH. nra.
Qed.

Lemma vdot_self_nonneg (r : list R) : 0 <= vdot r r.
Proof. unfold vdot. apply foldl_square_nonneg. cbn. lra. Qed.

Lemma normalize_row_scale k (r : list R) :
  0 < k → fsqrt (vdot r r) ≠ fzero →
  normalize_row (Rmult k <$> r) = normalize_row r.
Proof.
  intros Hk Hn. unfold normalize_row. cbn [fsqrt fdiv R_floatops] in *.
  rewrite vdot_scale.
  rewrite sqrt_mult_alt by nra. rewrite sqrt_square by lra.
  rewrite <-list_fmap_compose. apply list_fmap_ext. intros _ x _. simpl.
  cbn [fzero R_scalar] in Hn. field. split; [done|lra].
Qed.

Lemma normalized_scaled k (a : ndarray2 R) :
  0 < k → no_zero_norm a → normalized (scaled k a) = normalized a.
Proof.
  intros Hk Hn. unfold normalized, scaled. simpl. f_equal.
  rewrite <-list_fmap_compose. apply list_fmap_ext. intros i r Hr. simpl.
  apply normalize_row_scale; [done|].
  by apply (proj1 (Forall_lookup _ _) Hn i r).
Qed.

(** X13: over the real numbers, multiplying the good positions by one
    positive factor and the bad positions by another (another unit of
    length, another head radius) leaves the interpolation matrix as it
    is. *)
Theorem make_interpolation_matrix_scale_invariant pinv
    (σ σ' : gmap loc (ndarray2 R)) lf lt lf' lt' pf pt k k' alpha :
  0 < k → 0 < k' → no_zero_norm pf → no_zero_norm pt →
  σ !! lf = Some pf → σ !! lt = Some pt →
  σ' !! lf' = Some (scaled k pf) → σ' !! lt' = Some (scaled k' pt) →
  (_make_interpolation_matrix pinv lf' lt' alpha σ').1
  = (_make_interpolation_matrix pinv lf lt alpha σ).1.
Proof.
  intros Hk Hk' Hnf Hnt Hf Ht Hf' Ht'.
  rewrite (make_interpolation_matrix_run pinv σ lf lt pf pt alpha Hf Ht).
  rewrite (make_interpolation_matrix_run pinv σ' lf' lt' _ _ alpha Hf' Ht').
  cbn [fst]. by rewrite !normalized_scaled.
Qed.
End BuilderScale.

(** ** Boolean masks and the indices they select *)

Section MaskFacts.
Context {A B : Type}.

Lemma compress_cons (b : bool) (mask : list bool) (x : A) (l : list A) :
  compress (b :: mask) (x :: l)
  = if b then x :: compress mask l else compress mask l.
Proof. unfold compress. simpl. by destruct b. Qed.

Lemma compress_fmap (f : B → bool) (g : B → A) (l : list B) :
  compress (f <$> l) (g <$> l) = g <$> filter (λ x, f x = true) l.
Proof.
  induction l as [|x l IH]; [done|].
  rewrite !fmap_cons, compress_cons, IH, filter_cons.
  destruct (f x); by rewrite ?decide_True, ?decide_False by done.
Qed.

Lemma filter_ext_in (P Q : A → Prop)
    `{!∀ x, Decision (P x), !∀ x, Decision (Q x)} (l : list A) :
  (∀ x, x ∈ l → P x ↔ Q x) → filter P l = filter Q l.
Proof.
  induction l as [|x l IH]; intros Hx; [done|].
  rewrite !filter_cons.
  rewrite IH by (intros y Hy; apply Hx; by right).
  apply decide_ext. apply Hx. by left.
Qed.
End MaskFacts.

Section MaskIndexFacts.
Implicit Types (m : list bool) (picks : list nat).

Lemma default_false_lookup m k :
  default false (m !! k) = true ↔ m !! k = Some true.
Proof. destruct (m !! k) as [[]|]; naive_solver. Qed.

(** The indices a mask selects are those at which it holds, in increasing
    order. *)
Lemma flatnonzero_filter m :
  flatnonzero m = filter (λ k, m !! k = Some true) (seq 0 (length m)).
Proof.
  unfold flatnonzero.
  rewrite <-(list_as_lookups false m) at 1.
  rewrite <-(list_fmap_id (seq 0 (length m))) at 2.
  rewrite compress_fmap, list_fmap_id.
  apply list_filter_iff. intros k. apply default_false_lookup.
Qed.

Lemma elem_of_flatnonzero m k : k ∈ flatnonzero m ↔ m !! k = Some true.
Proof.
  rewrite flatnonzero_filter, list_elem_of_filter, elem_of_seq.
  split; [by intros [? _]|]. intros Hk. split; [done|].
  apply lookup_lt_Some in Hk. lia.
Qed.

Lemma NoDup_flatnonzero m : NoDup (flatnonzero m).
Proof. rewrite flatnonzero_filter. apply NoDup_filter, NoDup_seq. Qed.

Lemma Forall_lt_flatnonzero m : Forall (λ k, k < length m) (flatnonzero m).
Proof.
  apply Forall_forall. intros k Hk%elem_of_flatnonzero.
  by apply lookup_lt_Some in Hk.
Qed.

Lemma flatnonzero_disjoint m m' :
  (∀ k, m !! k = Some true → m' !! k = Some true → False) →
  flatnonzero m ## flatnonzero m'.
Proof.
  intros Hd k Hk%elem_of_flatnonzero Hk'%elem_of_flatnonzero. by eapply Hd.
Qed.

(** [l[m[picks]]] for a list [l] computed from the picks: the entries of
    the picks at which the mask holds. *)
Lemma compress_mask_take {A} (g : nat → A) picks m :
  compress (mask_take picks m) (g <$> picks)
  = g <$> filter (λ k, m !! k = Some true) picks.
Proof.
  unfold mask_take. rewrite compress_fmap. f_equal.
  apply list_filter_iff. intros k. apply default_false_lookup.
Qed.

Lemma mask_set_cons p picks v vals m :
  mask_set (p :: picks) (v :: vals) m = mask_set picks vals (<[p := v]> m).
Proof. reflexivity. Qed.

Lemma lookup_mask_set_fmap (f : nat → bool) picks m k :
  Forall (λ p, p < length m) picks →
  mask_set picks (f <$> picks) m !! k
  = if decide (k ∈ picks) then Some (f k) else m !! k.
Proof.
  revert m. induction picks as [|p picks IH]; intros m Hin.
  - by rewrite decide_False by apply not_elem_of_nil.
  - apply Forall_cons in Hin as [Hp Hin].
    rewrite fmap_cons, mask_set_cons, IH by by rewrite length_insert.
    destruct (decide (k ∈ picks)) as [Hk|Hk].
    + rewrite decide_True; [done|by right].
    + destruct (decide (k = p)) as [->|Hne].
      * rewrite decide_True by by left. by apply list_lookup_insert_eq.
      * rewrite decide_False; [by apply list_lookup_insert_ne|].
        by intros [?|?]%elem_of_cons.
Qed.

Lemma lookup_mask_clear (b m : list bool) k :
  mask_clear b m !! k
  = (x ← b !! k; y ← m !! k; Some (if x : bool then false else y)).
Proof. unfold mask_clear. apply lookup_zip_with. Qed.

Lemma length_mask_clear (b m : list bool) :
  length b = length m → length (mask_clear b m) = length m.
Proof. intros Hl. unfold mask_clear. rewrite length_zip_with. lia. Qed.
End MaskIndexFacts.

(** ** What the two paths select *)

Section PickCharacterization.
Context {T : Type}.
Implicit Types (i : inst T) (k : nat).

Lemma omap_imap_compress {A} (P : A → Prop) `{!∀ x, Decision (P x)}
    (l : list A) (j : nat) :
  omap (λ o, o)
       (imap (λ k c, if decide (P c) then Some (j + k) else None) l)
  = compress ((λ c, bool_decide (P c)) <$> l) (seq j (length l)).
Proof.
  revert j. induction l as [|c l IH]; intros j; [done|].
  rewrite imap_cons, fmap_cons. simpl length. simpl seq.
  rewrite compress_cons. simpl omap.
  assert (imap ((λ k c0, if decide (P c0) then Some (j + k) else None) ∘ S) l
          = imap (λ k c0, if decide (P c0) then Some (S j + k) else None) l)
    as ->.
  { apply imap_ext. intros k x _. simpl.
    by replace (j + S k) with (S (j + k)) by lia. }
  rewrite IH, Nat.add_0_r.
  destruct (decide (P c)).
  - by rewrite bool_decide_eq_true_2.
  - by rewrite bool_decide_eq_false_2.
Qed.

(** [pick_types] gives the indices at which the test holds, in increasing
    order. *)
Lemma pick_types_flatnonzero i meg eeg exclude :
  pick_types i meg eeg exclude
  = flatnonzero ((λ c, bool_decide
                         ((ch_kind c = MEG ∧ meg = true
                           ∨ ch_kind c = EEG ∧ eeg = true)
                          ∧ ch_name c ∉ exclude)) <$> chs i).
Proof.
  unfold pick_types, flatnonzero. rewrite length_fmap.
  apply (omap_imap_compress
           (λ c, (ch_kind c = MEG ∧ meg = true ∨ ch_kind c = EEG ∧ eeg = true)
                 ∧ ch_name c ∉ exclude) (chs i) 0).
Qed.

Lemma elem_of_pick_types i meg eeg exclude k :
  k ∈ pick_types i meg eeg exclude
  ↔ ∃ c, chs i !! k = Some c ∧ picked meg eeg exclude c.
Proof.
  rewrite pick_types_flatnonzero, elem_of_flatnonzero, list_lookup_fmap.
  unfold picked. destruct (chs i !! k) as [c|]; simpl.
  - split.
    + intros [= Hc%bool_decide_eq_true]. by exists c.
    + intros (c' & [= <-] & Hc). f_equal. by apply bool_decide_eq_true.
  - split; [done|]. by intros (? & ? & _).
Qed.

Lemma pick_types_lt i meg eeg exclude :
  Forall (λ k, k < length (chs i)) (pick_types i meg eeg exclude).
Proof.
  rewrite pick_types_flatnonzero.
  match goal with |- Forall _ (flatnonzero ?m) =>
    pose proof (Forall_lt_flatnonzero m) as Hf end.
  by rewrite length_fmap in Hf.
Qed.

Lemma NoDup_pick_types i meg eeg exclude :
  NoDup (pick_types i meg eeg exclude).
Proof. rewrite pick_types_flatnonzero. apply NoDup_flatnonzero. Qed.

(** [pick_channels] gives the indices in the given list of names. *)
Lemma pick_channels_flatnonzero (names include exclude : list string) :
  pick_channels names include exclude
  = flatnonzero ((λ name, bool_decide
                   ((length include = 0 ∨ name ∈ include) ∧ name ∉ exclude))
                 <$> names).
Proof.
  unfold pick_channels, flatnonzero. rewrite length_fmap.
  apply (omap_imap_compress
           (λ name, (length include = 0 ∨ name ∈ include) ∧ name ∉ exclude)
           names 0).
Qed.

Lemma elem_of_pick_channels (names include : list string) k :
  include ≠ [] →
  k ∈ pick_channels names include []
  ↔ ∃ name, names !! k = Some name ∧ name ∈ include.
Proof.
  intros Hne.
  rewrite pick_channels_flatnonzero, elem_of_flatnonzero, list_lookup_fmap.
  destruct (names !! k) as [name|]; simpl.
  - split.
    + intros [= Hc%bool_decide_eq_true]. exists name. split; [done|].
      destruct Hc as [[Hl|Hin] _]; [|done].
      by apply nil_length_inv in Hl.
    + intros (? & [= <-] & Hin). f_equal. apply bool_decide_eq_true.
      split; [by right|apply not_elem_of_nil].
  - split; [done|]. by intros (? & ? & _).
Qed.
End PickCharacterization.

Section EegSelection.
Context {T : Type}.
Implicit Types (i : inst T) (k : nat).

Lemma elem_of_eeg_picks i k :
  k ∈ pick_types i false true []
  ↔ ∃ c, chs i !! k = Some c ∧ ch_kind c = EEG.
Proof.
  rewrite elem_of_pick_types. unfold picked. split.
  - intros (c & Hc & [[[_ ?]|[? _]] _]); [done|]. by exists c.
  - intros (c & Hc & Hk). exists c. split; [done|].
    split; [by right|apply not_elem_of_nil].
Qed.

Lemma lookup_ch_names i k c :
  chs i !! k = Some c → ch_names i !! k = Some (ch_name c).
Proof. intros Hc. unfold ch_names. by rewrite list_lookup_fmap, Hc. Qed.

Lemma length_ch_names i : length (ch_names i) = length (chs i).
Proof. unfold ch_names. by rewrite length_fmap. Qed.

(** The mask [bads_idx] holds exactly at the bad EEG channels. *)
Lemma lookup_sel_bads_idx i k :
  sel_bads_idx (eeg_select i) !! k = Some true ↔ bad_channel EEG i k.
Proof.
  unfold eeg_select, eeg_bads_mask. simpl.
  rewrite lookup_mask_set_fmap; last first.
  { rewrite length_replicate, length_ch_names. apply pick_types_lt. }
  unfold bad_channel. destruct (decide (k ∈ pick_types i false true [])) as [Hk|Hk].
  - apply elem_of_eeg_picks in Hk as (c & Hc & Hkind).
    rewrite (lookup_ch_names i k c Hc). simpl. split.
    + intros [= Hb%bool_decide_eq_true]. by exists c.
    + intros (c' & Hc' & _ & Hb). f_equal. apply bool_decide_eq_true.
      congruence.
  - split.
    + intros Hr%lookup_replicate. by destruct Hr.
    + intros (c & Hc & Hkind & _). exfalso. apply Hk.
      apply elem_of_eeg_picks. by exists c.
Qed.

Lemma length_eeg_bads_mask i :
  length (eeg_bads_mask i (pick_types i false true [])) = length (chs i).
Proof.
  unfold eeg_bads_mask.
  by rewrite length_mask_set, length_replicate, length_ch_names.
Qed.

(** The mask [goods_idx] holds exactly at the EEG channels that are not
    bad. *)
Lemma lookup_sel_goods_idx i k :
  sel_goods_idx (eeg_select i) !! k = Some true ↔ good_channel EEG i k.
Proof.
  pose proof (lookup_sel_bads_idx i k) as Hb.
  unfold eeg_select in *. simpl in *.
  rewrite lookup_mask_clear.
  rewrite <-(const_fmap (λ _ : nat, true) (pick_types i false true []) true)
    by done.
  rewrite lookup_mask_set_fmap; last first.
  { rewrite length_replicate, length_ch_names. apply pick_types_lt. }
  unfold good_channel, bad_channel in *.
  destruct (decide (k ∈ pick_types i false true [])) as [Hk|Hk].
  - apply elem_of_eeg_picks in Hk as (c & Hc & Hkind).
    assert (k < length (eeg_bads_mask i (pick_types i false true []))) as Hlt.
    { rewrite length_eeg_bads_mask. by apply lookup_lt_Some in Hc. }
    destruct (lookup_lt_is_Some_2 _ _ Hlt) as [b Hbk].
    rewrite Hbk in Hb |- *. simpl. split.
    + intros [= Hf]. destruct b; [done|]. exists c. split; [done|].
      split; [done|]. intros Hin.
      assert (Some false = Some true) as [=]. apply Hb. by exists c.
    + intros (c' & Hc' & _ & Hnb). destruct b; [|done].
      destruct (proj1 Hb eq_refl) as (c'' & Hc'' & _ & Hin).
      exfalso. apply Hnb. congruence.
  - split.
    + destruct (eeg_bads_mask i (pick_types i false true []) !! k) as [b|];
        [|done]. simpl. intros Hr.
      destruct (replicate (length (ch_names i)) false !! k) as [y|] eqn:Hy;
        [|done].
      apply lookup_replicate in Hy as [-> _]. simpl in Hr. by destruct b.
    + intros (c & Hc & Hkind & _). exfalso. apply Hk.
      apply elem_of_eeg_picks. by exists c.
Qed.

Lemma length_sel_goods_idx i :
  length (sel_goods_idx (eeg_select i)) = length (chs i).
Proof.
  unfold eeg_select. simpl.
  rewrite length_mask_clear.
  - by rewrite length_mask_set, length_replicate, length_ch_names.
  - rewrite length_eeg_bads_mask.
    by rewrite length_mask_set, length_replicate, length_ch_names.
Qed.

Lemma rows_get_channel_positions i picks :
  rows (_get_channel_positions i picks) = position_row i <$> picks.
Proof. reflexivity. Qed.

Lemma eeg_filter_picks i (m : list bool) :
  length m = length (chs i) →
  (∀ k, m !! k = Some true → k ∈ pick_types i false true []) →
  filter (λ k, m !! k = Some true) (pick_types i false true [])
  = flatnonzero m.
Proof.
  intros Hl Hin. rewrite (flatnonzero_filter m), Hl.
  rewrite pick_types_flatnonzero at 1. rewrite flatnonzero_filter, length_fmap.
  apply list_filter_filter_l. intros k Hk.
  apply elem_of_flatnonzero. rewrite <-pick_types_flatnonzero. by apply Hin.
Qed.

(** The position arrays follow the index arrays: row by row, [pos_good]
    and [pos_bad] hold the positions of the channels that [goods_idx] and
    [bads_idx] select. *)
Lemma rows_sel_pos i :
  rows (sel_pos_good (eeg_select i))
  = position_row i <$> flatnonzero (sel_goods_idx (eeg_select i)) ∧
  rows (sel_pos_bad (eeg_select i))
  = position_row i <$> flatnonzero (sel_bads_idx (eeg_select i)).
Proof.
  pose proof (lookup_sel_goods_idx i) as Hg.
  pose proof (lookup_sel_bads_idx i) as Hb.
  pose proof (length_sel_goods_idx i) as Hlg.
  pose proof (length_sel_bads_idx i) as Hlb.
  unfold eeg_select in *. simpl in *.
  rewrite !compress_mask_take. split; f_equal.
  - apply eeg_filter_picks; [done|]. intros k Hk.
    apply Hg in Hk as (c & Hc & Hkind & _).
    apply elem_of_eeg_picks. by exists c.
  - apply eeg_filter_picks; [done|]. intros k Hk.
    apply Hb in Hk as (c & Hc & Hkind & _).
    apply elem_of_eeg_picks. by exists c.
Qed.
End EegSelection.

(** ** The EEG path from end to end *)

Section ApplierResult.
Context {T : Type} `{Scalar T}.
Implicit Types (i : inst T) (M : ndarray2 T) (goods_idx bads_idx : list nat).

(** The container a successful application leaves. *)
Lemma do_interp_dots_result i M goods_idx bads_idx :
  supported (payload i) →
  shapes_fit (n_channels (payload i)) M goods_idx bads_idx →
  ∃ i', _do_interp_dots i M goods_idx bads_idx = (inr (), i') ∧
        chs i' = chs i ∧ bads i' = bads i ∧
        slices (payload i')
        = (λ d, Arr2 (ncols d)
                   (interp_rows (ncols d) M goods_idx bads_idx (rows d)))
          <$> slices (payload i).
Proof.
  intros Hsup Hs. unfold _do_interp_dots.
  destruct (payload i) as [d|e|d|ty] eqn:Hp; simpl in *; [| | |done].
  - rewrite (proj2 (interp2_inr M goods_idx bads_idx d _) (conj Hs eq_refl)).
    by eexists.
  - rewrite (interp3_fit M goods_idx bads_idx e Hs).
    eexists. repeat split; try done. simpl.
    by rewrite <-!list_fmap_compose.
  - rewrite (proj2 (interp2_inr M goods_idx bads_idx d _) (conj Hs eq_refl)).
    by eexists.
Qed.

Lemma Forall_slices_nrows (p : sigdata T) :
  wf_payload p → Forall (λ d, nrows d = n_channels p) (slices p).
Proof.
  destruct p as [d|e|d|ty]; simpl; intros Hwf; repeat constructor.
  apply Forall_fmap. eapply Forall_impl; [exact Hwf|].
  by intros t [Hl _].
Qed.
End ApplierResult.

Section BuilderShape.
Context {T : Type} `{FloatOps T}.
Variable pinv : ndarray2 T → ndarray2 T.

(** The computation of the builder on two arrays, and its shape. *)
Lemma spline_matrix_shape pf pt (alpha : T) :
  (∀ g, wf2 g → 0 < nrows g → ncols g = nrows g →
        nrows (pinv g) = nrows g ∧ ncols (pinv g) = nrows g) →
  ncols pt = ncols pf → 0 < nrows pf →
  ∃ m, (gg ← dot (normalized pf) (transpose (normalized pf));
        bg ← dot (normalized pt) (transpose (normalized pf));
        dot (G bg)
            (pinv (flat_stride_iadd (nrows (G gg) + 1) alpha (G gg)))) = inr m ∧
       spline_matrix pinv pf pt alpha = inr m ∧
       nrows m = nrows pt ∧ ncols m = nrows pf.
Proof.
  intros Hpinv Hc Hn. unfold spline_matrix. simpl.
  destruct (normalized_shape pf) as [Hfr Hfc].
  destruct (normalized_shape pt) as [Htr Htc].
  destruct (transpose_shape (normalized pf)) as [Hxr Hxc].
  destruct (dot_inr (normalized pf) (transpose (normalized pf)))
    as [gg Hgg]; [congruence|].
  destruct (dot_inr (normalized pt) (transpose (normalized pf)))
    as [bg Hbg]; [congruence|].
  rewrite Hgg, Hbg. unfold mbind, res_bind.
  destruct (dot_shape _ _ _ Hgg) as [Hggr Hggc].
  destruct (dot_shape _ _ _ Hbg) as [Hbgr Hbgc].
  assert (wf2 (G gg)) as HGwf by (apply wf2_legval2; by eapply wf2_dot).
  assert (nrows (G gg) = nrows gg ∧ ncols (G gg) = ncols gg) as [HGr HGc]
    by apply legval2_shape.
  assert (nrows (G bg) = nrows bg ∧ ncols (G bg) = ncols bg) as [HBr HBc]
    by apply legval2_shape.
  rewrite flat_stride_iadd_diagonal by (done || congruence).
  destruct (add_alpha_I_shape alpha (G gg)) as [Har Hac].
  destruct (Hpinv (add_alpha_I alpha (G gg))) as [Hpr Hpc];
    [by apply wf2_add_alpha_I|lia|congruence|].
  destruct (dot_inr (G bg) (pinv (add_alpha_I alpha (G gg))))
    as [m Hm]; [congruence|].
  exists m. destruct (dot_shape _ _ _ Hm) as [Hmr Hmc].
  repeat split; congruence.
Qed.

Lemma call_make_interpolation_matrix_unfold (pos_good pos_bad : ndarray2 T) :
  call_make_interpolation_matrix pinv pos_good pos_bad
  = (gg ← dot (normalized pos_good) (transpose (normalized pos_good));
     bg ← dot (normalized pos_bad) (transpose (normalized pos_good));
     dot (G bg)
         (pinv (flat_stride_iadd (nrows (G gg) + 1) f1e_5 (G gg)))).
Proof.
  unfold call_make_interpolation_matrix, alloc, mbind, prog_bind.
  set (lg := fresh (dom (∅ : store T))).
  set (σ1 := <[lg := pos_good]> (∅ : store T)).
  set (lb := fresh (dom σ1)).
  assert (lg ≠ lb) as Hne.
  { apply (lookup_ne_fresh σ1 lg pos_good). apply lookup_insert_eq. }
  rewrite (make_interpolation_matrix_run pinv (<[lb := pos_bad]> σ1) lg lb
             pos_good pos_bad (Some f1e_5)).
  - done.
  - rewrite lookup_insert_ne by done. apply lookup_insert_eq.
  - apply lookup_insert_eq.
Qed.
End BuilderShape.

Section EegMore.
Context {T : Type} `{FloatOps T}.
Variable pinv : ndarray2 T → ndarray2 T.
Variable _fit_sphere : ndarray2 T → T * list T.
Implicit Types (i : inst T) (log : list log_record).

Lemma eeg_select_partition_aux i :
  (∀ k, k ∈ flatnonzero (sel_goods_idx (eeg_select i)) ↔ good_channel EEG i k) ∧
  (∀ k, k ∈ flatnonzero (sel_bads_idx (eeg_select i)) ↔ bad_channel EEG i k) ∧
  NoDup (flatnonzero (sel_goods_idx (eeg_select i))) ∧
  NoDup (flatnonzero (sel_bads_idx (eeg_select i))) ∧
  flatnonzero (sel_goods_idx (eeg_select i))
    ## flatnonzero (sel_bads_idx (eeg_select i)).
Proof.
  split; [|split; [|split; [|split]]].
  - intros k. rewrite elem_of_flatnonzero. apply lookup_sel_goods_idx.
  - intros k. rewrite elem_of_flatnonzero. apply lookup_sel_bads_idx.
  - apply NoDup_flatnonzero.
  - apply NoDup_flatnonzero.
  - apply flatnonzero_disjoint. intros k Hg Hb.
    apply lookup_sel_goods_idx in Hg as (c & Hc & _ & Hn).
    apply lookup_sel_bads_idx in Hb as (c' & Hc' & _ & Hin).
    apply Hn. congruence.
Qed.

(** X14: in the EEG path the index array [goods_idx] selects exactly the
    EEG channels whose name is not in the bad list and [bads_idx] exactly
    those whose name is; each index comes once, and no index is in both. *)
Theorem eeg_select_partition i :
  (∀ k, k ∈ flatnonzero (sel_goods_idx (eeg_select i)) ↔ good_channel EEG i k) ∧
  (∀ k, k ∈ flatnonzero (sel_bads_idx (eeg_select i)) ↔ bad_channel EEG i k) ∧
  NoDup (flatnonzero (sel_goods_idx (eeg_select i))) ∧
  NoDup (flatnonzero (sel_bads_idx (eeg_select i))) ∧
  flatnonzero (sel_goods_idx (eeg_select i))
    ## flatnonzero (sel_bads_idx (eeg_select i)).
Proof. apply eeg_select_partition_aux. Qed.

(** X15: the position arrays handed to the builder are aligned with the
    index arrays handed to the applier: row [j] of [pos_good] is the position
    of the channel that the [j]-th good index names, and the same holds for
    [pos_bad] and the bad indices. *)
Theorem eeg_positions_follow_indices i :
  rows (sel_pos_good (eeg_select i))
  = position_row i <$> flatnonzero (sel_goods_idx (eeg_select i)) ∧
  rows (sel_pos_bad (eeg_select i))
  = position_row i <$> flatnonzero (sel_bads_idx (eeg_select i)) ∧
  ncols (sel_pos_good (eeg_select i)) = 3 ∧
  ncols (sel_pos_bad (eeg_select i)) = 3.
Proof.
  destruct (rows_sel_pos i) as [Hg Hb]. by repeat split.
Qed.

Lemma eeg_picks_nonempty i k c :
  chs i !! k = Some c → ch_kind c = EEG → pick_types i false true [] ≠ [].
Proof.
  intros Hc Hk Hnil.
  assert (k ∈ pick_types i false true []) as Hin
    by (apply elem_of_eeg_picks; by exists c).
  rewrite Hnil in Hin. by apply elem_of_nil in Hin.
Qed.

(** The matrix the EEG path builds, with its shape. *)
Lemma eeg_matrix i k :
  (∀ g, wf2 g → 0 < nrows g → ncols g = nrows g →
        nrows (pinv g) = nrows g ∧ ncols (pinv g) = nrows g) →
  good_channel EEG i k →
  ∃ M, call_make_interpolation_matrix pinv (sel_pos_good (eeg_select i))
                                      (sel_pos_bad (eeg_select i)) = inr M ∧
       spline_matrix pinv (sel_pos_good (eeg_select i))
                     (sel_pos_bad (eeg_select i)) f1e_5 = inr M ∧
       nrows M = length (flatnonzero (sel_bads_idx (eeg_select i))) ∧
       ncols M = length (flatnonzero (sel_goods_idx (eeg_select i))).
Proof.
  intros Hpinv Hgood.
  destruct (rows_sel_pos i) as [Hg Hb].
  assert (nrows (sel_pos_good (eeg_select i))
          = length (flatnonzero (sel_goods_idx (eeg_select i)))) as Hng.
  { unfold nrows. by rewrite Hg, length_fmap. }
  assert (nrows (sel_pos_bad (eeg_select i))
          = length (flatnonzero (sel_bads_idx (eeg_select i)))) as Hnb.
  { unfold nrows. by rewrite Hb, length_fmap. }
  assert (0 < nrows (sel_pos_good (eeg_select i))) as Hpos.
  { rewrite Hng.
    assert (k ∈ flatnonzero (sel_goods_idx (eeg_select i))) as Hk.
    { apply elem_of_flatnonzero. by apply lookup_sel_goods_idx. }
    destruct (flatnonzero (sel_goods_idx (eeg_select i))); simpl; [|lia].
    by apply elem_of_nil in Hk. }
  destruct (spline_matrix_shape pinv (sel_pos_good (eeg_select i))
              (sel_pos_bad (eeg_select i)) f1e_5 Hpinv eq_refl Hpos)
    as (M & HM & Hspl & Hr & Hc).
  exists M. rewrite call_make_interpolation_matrix_unfold.
  repeat split; congruence.
Qed.

Lemma eeg_shapes_fit i (M : ndarray2 T) :
  n_channels (payload i) = length (chs i) →
  nrows M = length (flatnonzero (sel_bads_idx (eeg_select i))) →
  ncols M = length (flatnonzero (sel_goods_idx (eeg_select i))) →
  shapes_fit (n_channels (payload i)) M
    (flatnonzero (sel_goods_idx (eeg_select i)))
    (flatnonzero (sel_bads_idx (eeg_select i))).
Proof.
  intros Hn Hr Hc. rewrite Hn. repeat split; [|done| |by left].
  - rewrite <-(length_sel_goods_idx i). apply Forall_lt_flatnonzero.
  - rewrite <-(length_sel_bads_idx i). apply Forall_lt_flatnonzero.
Qed.

(** X16: from end to end.  On a rectangular container of a supported class
    with one data row per channel and at least one good EEG channel, and
    with a pseudo-inverse that returns an [n] x [n] array on an [n] x [n]
    one, the EEG path succeeds: it builds the spline matrix [M] of the good
    and the bad EEG positions, the rows of the bad EEG channels become [M]
    times the rows of the good EEG channels, and all other rows are as they
    were. *)
Theorem interpolate_bads_eeg_interpolates i log k :
  (∀ g, wf2 g → 0 < nrows g → ncols g = nrows g →
        nrows (pinv g) = nrows g ∧ ncols (pinv g) = nrows g) →
  supported (payload i) → wf_payload (payload i) →
  n_channels (payload i) = length (chs i) →
  good_channel EEG i k →
  ∃ M, spline_matrix pinv (sel_pos_good (eeg_select i))
                     (sel_pos_bad (eeg_select i)) f1e_5 = inr M ∧
       (_interpolate_bads_eeg pinv _fit_sphere i log).1 = inr () ∧
       Forall2 (interpolated M (flatnonzero (sel_goods_idx (eeg_select i)))
                               (flatnonzero (sel_bads_idx (eeg_select i))))
               (slices (payload i))
               (slices (payload (_interpolate_bads_eeg pinv _fit_sphere i log).2.1)) ∧
       Forall2 (same_outside (flatnonzero (sel_bads_idx (eeg_select i))))
               (slices (payload i))
               (slices (payload (_interpolate_bads_eeg pinv _fit_sphere i log).2.1)).
Proof.
  intros Hpinv Hsup Hwf Hn Hgood.
  destruct (eeg_matrix i k Hpinv Hgood) as (M & Hcall & Hspl & Hr & Hc).
  exists M. split; [done|].
  destruct Hgood as (c & Hck & Hkind & _).
  rewrite (interpolate_bads_eeg_run pinv _fit_sphere i log
             (eeg_picks_nonempty i k c Hck Hkind)).
  cbv zeta. rewrite Hcall. cbn [fst snd].
  pose proof (eeg_shapes_fit i M Hn Hr Hc) as Hfit.
  destruct (do_interp_dots_result i M _ _ Hsup Hfit)
    as (i' & Hrun & _ & _ & Hsl).
  rewrite Hrun. cbn [fst snd]. split; [done|]. rewrite Hsl.
  destruct (eeg_select_partition_aux i) as (_ & _ & _ & Hnd & Hdisj).
  destruct Hfit as (Hg & _ & Hb & _).
  split.
  - apply Forall2_fmap_r, Forall_Forall2_diag.
    eapply Forall_impl; [by apply Forall_slices_nrows|].
    intros [nc rs] Hd. unfold nrows in Hd; simpl in *.
    apply interpolated_interp_rows; by rewrite ?Hd.
  - apply Forall2_fmap_r, Forall_Forall2_diag, Forall_true.
    intros [nc rs]. apply same_outside_interp_rows.
Qed.

(** X17: when there are EEG channels and none of them is bad, the EEG path
    runs through the builder and the applier and leaves the container as it
    was: what the missing early return costs is work and log lines, not
    data. *)
Theorem interpolate_bads_eeg_without_bads_unchanged i log k c :
  (∀ g, wf2 g → 0 < nrows g → ncols g = nrows g →
        nrows (pinv g) = nrows g ∧ ncols (pinv g) = nrows g) →
  supported (payload i) → n_channels (payload i) = length (chs i) →
  chs i !! k = Some c → ch_kind c = EEG →
  (∀ j, ¬ bad_channel EEG i j) →
  (_interpolate_bads_eeg pinv _fit_sphere i log).1 = inr () ∧
  (_interpolate_bads_eeg pinv _fit_sphere i log).2.1 = i.
Proof.
  intros Hpinv Hsup Hn Hck Hkind Hnobad.
  assert (good_channel EEG i k) as Hgood.
  { exists c. repeat split; try done. intros Hin. apply (Hnobad k).
    by exists c. }
  destruct (eeg_matrix i k Hpinv Hgood) as (M & Hcall & _ & Hr & Hc).
  rewrite (interpolate_bads_eeg_run pinv _fit_sphere i log
             (eeg_picks_nonempty i k c Hck Hkind)).
  cbv zeta. rewrite Hcall. cbn [fst snd].
  pose proof (eeg_shapes_fit i M Hn Hr Hc) as (Hg & _ & _ & _).
  assert (flatnonzero (sel_bads_idx (eeg_select i)) = []) as Hnil.
  { apply elem_of_nil_inv. intros j Hj%elem_of_flatnonzero.
    apply lookup_sel_bads_idx in Hj. by apply (Hnobad j). }
  rewrite Hnil in *.
  by rewrite do_interp_dots_no_bads_unchanged.
Qed.

(** X18: a container without EEG channel goes through the EEG path
    untouched, and nothing is logged. *)
Theorem interpolate_bads_eeg_no_eeg_channel i log :
  (∀ k c, chs i !! k = Some c → ch_kind c ≠ EEG) →
  _interpolate_bads_eeg pinv _fit_sphere i log = (inr (), (i, log)).
Proof.
  intros Hno. apply interpolate_bads_eeg_no_eeg.
  apply elem_of_nil_inv. intros k (c & Hc & Hk)%elem_of_eeg_picks.
  by apply (Hno k c).
Qed.
End EegMore.

(** ** The MEG path: which rows it reads and writes *)

Section MegMore.
Context {T : Type} `{Scalar T}.
Variable _map_meg_channels : inst T → list nat → list nat → string → ndarray2 T.
Implicit Types (i : inst T) (k p : nat).

Lemma elem_of_meg_picks i p :
  p ∈ (meg_select i).1.1 ↔ ∃ c, chs i !! p = Some c ∧ ch_kind c = MEG.
Proof.
  unfold meg_select. cbn [fst snd].
  rewrite elem_of_pick_types. unfold picked. split.
  - intros (c & Hc & [[[? _]|[_ ?]] _]); [|done]. by exists c.
  - intros (c & Hc & Hk). exists c. split; [done|].
    split; [by left|apply not_elem_of_nil].
Qed.

Lemma elem_of_meg_picks_good i k :
  k ∈ (meg_select i).1.2 ↔ good_channel MEG i k.
Proof.
  unfold meg_select. cbn [fst snd].
  rewrite elem_of_pick_types. unfold picked, good_channel. split.
  - intros (c & Hc & [[[? _]|[_ ?]] Hn]); [|done]. by exists c.
  - intros (c & Hc & Hk & Hn). exists c. split; [done|].
    split; [by left|done].
Qed.

(** A bad pick is a position in the list of the MEG channels: [k] is
    picked when the [k]-th MEG channel is bad. *)
Lemma elem_of_meg_picks_bad i k :
  k ∈ (meg_select i).2
  ↔ ∃ p, (meg_select i).1.1 !! k = Some p ∧ bad_channel MEG i p.
Proof.
  unfold meg_select. cbn [fst snd].
  destruct (decide (length (bads i) = 0)) as [Hl|Hl].
  - apply nil_length_inv in Hl. split.
    + by intros ?%elem_of_nil.
    + intros (p & _ & c & _ & _ & Hin). rewrite Hl in Hin.
      by apply elem_of_nil in Hin.
  - assert (bads i ≠ []) as Hne by (by intros Hb; rewrite Hb in Hl).
    rewrite (elem_of_pick_channels _ _ k Hne), list_lookup_fmap.
    destruct (pick_types i true false [] !! k) as [p|] eqn:Hp; simpl.
    + assert (p ∈ (meg_select i).1.1) as Hin
        by (by apply list_elem_of_lookup_2 with k).
      apply elem_of_meg_picks in Hin as (c & Hc & Hk).
      rewrite (lookup_ch_names i p c Hc). simpl. split.
      * intros (name & [= <-] & Hb). exists p. split; [done|]. by exists c.
      * intros (p' & [= <-] & c' & Hc' & _ & Hb). exists (ch_name c).
        split; [done|]. congruence.
    + split; [by intros (? & ? & _)|by intros (? & ? & _)].
Qed.

(** X19: what the MEG path selects.  [picks_good] holds the indices, in the
    channel list, of the MEG channels that are not bad; [picks_bad] holds
    positions in the list of the MEG channels: [k] is in it when the [k]-th
    MEG channel is bad.  The row the applier overwrites for a bad MEG
    channel is thus its rank among the MEG channels. *)
Theorem meg_select_indices i :
  (∀ p, p ∈ (meg_select i).1.1 ↔ ∃ c, chs i !! p = Some c ∧ ch_kind c = MEG) ∧
  (∀ k, k ∈ (meg_select i).1.2 ↔ good_channel MEG i k) ∧
  (∀ k, k ∈ (meg_select i).2
        ↔ ∃ p, (meg_select i).1.1 !! k = Some p ∧ bad_channel MEG i p).
Proof.
  split; [apply elem_of_meg_picks|].
  split; [apply elem_of_meg_picks_good|apply elem_of_meg_picks_bad].
Qed.

Lemma NoDup_meg_picks_bad i : NoDup (meg_select i).2.
Proof.
  unfold meg_select. cbn [fst snd]. case_decide; [apply NoDup_nil_2|].
  rewrite pick_channels_flatnonzero. apply NoDup_flatnonzero.
Qed.

Lemma meg_picks_bad_prefix i k :
  (meg_select i).1.1 = seq 0 (length (meg_select i).1.1) →
  k ∈ (meg_select i).2 ↔ bad_channel MEG i k.
Proof.
  intros Hpre. rewrite elem_of_meg_picks_bad. split.
  - intros (p & Hp & Hb). rewrite Hpre in Hp.
    apply lookup_seq in Hp as [-> _]. done.
  - intros Hb. exists k. split; [|done].
    assert (k ∈ (meg_select i).1.1) as Hin.
    { apply elem_of_meg_picks. destruct Hb as (c & Hc & Hk & _). by exists c. }
    rewrite Hpre in Hin |- *. apply elem_of_seq in Hin.
    apply lookup_seq. lia.
Qed.

Lemma meg_select_prefix_aligned_aux i :
  (meg_select i).1.1 = seq 0 (length (meg_select i).1.1) →
  (∀ k, k ∈ (meg_select i).2 ↔ bad_channel MEG i k) ∧
  (∀ k, k ∈ (meg_select i).1.2 ↔ good_channel MEG i k) ∧
  (meg_select i).1.2 ## (meg_select i).2 ∧
  NoDup (meg_select i).1.2 ∧ NoDup (meg_select i).2.
Proof.
  intros Hpre. split; [intros k; by apply meg_picks_bad_prefix|].
  split; [apply elem_of_meg_picks_good|]. split; [|split].
  - intros k (c & Hc & _ & Hn)%elem_of_meg_picks_good Hb.
    apply (meg_picks_bad_prefix i k Hpre) in Hb as (c' & Hc' & _ & Hin).
    apply Hn. congruence.
  - unfold meg_select. cbn [fst snd]. apply NoDup_pick_types.
  - apply NoDup_meg_picks_bad.
Qed.

(** X20: when the MEG channels come first in the channel list, the two
    orderings agree: [picks_bad] is exactly the set of the bad MEG channels,
    it is disjoint from [picks_good], and no index comes twice. *)
Theorem meg_select_prefix_aligned i :
  (meg_select i).1.1 = seq 0 (length (meg_select i).1.1) →
  (∀ k, k ∈ (meg_select i).2 ↔ bad_channel MEG i k) ∧
  (∀ k, k ∈ (meg_select i).1.2 ↔ good_channel MEG i k) ∧
  (meg_select i).1.2 ## (meg_select i).2 ∧
  NoDup (meg_select i).1.2 ∧ NoDup (meg_select i).2.
Proof. apply meg_select_prefix_aligned_aux. Qed.

(** X21: when no MEG channel is named in the bad list (there may be no MEG
    channel at all, or the bad list may name other channels only), the MEG
    path returns without touching the container. *)
Theorem interpolate_bads_meg_no_bad_meg i mode :
  (∀ p, ¬ bad_channel MEG i p) →
  _interpolate_bads_meg _map_meg_channels i mode = (inr (), i).
Proof.
  intros Hno. apply interpolate_bads_meg_noop. right.
  apply elem_of_nil_inv. intros k (p & _ & Hb)%elem_of_meg_picks_bad.
  by apply (Hno p).
Qed.

(** X22: with the MEG channels first, a rectangular container of a
    supported class with one data row per channel, a bad MEG channel and a
    mapping of [|picks_bad|] rows and [|picks_good|] columns, the MEG path
    succeeds and sets the rows of the bad MEG channels to the mapping times
    the rows of the good MEG channels, leaving all other rows. *)
Theorem interpolate_bads_meg_prefix_interpolates i mode k :
  (meg_select i).1.1 = seq 0 (length (meg_select i).1.1) →
  supported (payload i) → wf_payload (payload i) →
  n_channels (payload i) = length (chs i) →
  bad_channel MEG i k →
  nrows (_map_meg_channels i (meg_select i).1.2 (meg_select i).2 mode)
  = length (meg_select i).2 →
  ncols (_map_meg_channels i (meg_select i).1.2 (meg_select i).2 mode)
  = length (meg_select i).1.2 →
  (_interpolate_bads_meg _map_meg_channels i mode).1 = inr () ∧
  Forall2 (interpolated
             (_map_meg_channels i (meg_select i).1.2 (meg_select i).2 mode)
             (meg_select i).1.2 (meg_select i).2)
          (slices (payload i))
          (slices (payload (_interpolate_bads_meg _map_meg_channels i mode).2)) ∧
  Forall2 (same_outside (meg_select i).2)
          (slices (payload i))
          (slices (payload (_interpolate_bads_meg _map_meg_channels i mode).2)).
Proof.
  intros Hpre Hsup Hwf Hn Hbad Hr Hc.
  destruct (meg_select_prefix_aligned_aux i Hpre) as (Hb & Hg & Hdisj & _ & Hnd).
  assert (k ∈ (meg_select i).2) as Hkb by by apply Hb.
  assert (k ∈ (meg_select i).1.1) as Hkm.
  { apply elem_of_meg_picks. destruct Hbad as (c & ? & ? & _). by exists c. }
  unfold _interpolate_bads_meg.
  destruct (meg_select i) as [[picks_meg picks_good] picks_bad] eqn:Hsel.
  cbn [fst snd] in *.
  rewrite decide_False; last first.
  { intros [Hl|Hl]; apply nil_length_inv in Hl; subst;
      by eapply elem_of_nil. }
  set (M := _map_meg_channels i picks_good picks_bad mode) in *.
  assert (shapes_fit (n_channels (payload i)) M picks_good picks_bad) as Hfit.
  { rewrite Hn. repeat split; [|done| |by left].
    - apply Forall_forall. intros j (c & Hcj & _)%Hg.
      by apply lookup_lt_Some in Hcj.
    - apply Forall_forall. intros j (c & Hcj & _)%Hb.
      by apply lookup_lt_Some in Hcj. }
  destruct (do_interp_dots_result i M _ _ Hsup Hfit)
    as (i' & Hrun & _ & _ & Hsl).
  rewrite Hrun. cbn [fst snd]. split; [done|]. rewrite Hsl.
  destruct Hfit as (Hgl & _ & Hbl & _).
  split.
  - apply Forall2_fmap_r, Forall_Forall2_diag.
    eapply Forall_impl; [by apply Forall_slices_nrows|].
    intros [nc rs] Hd. unfold nrows in Hd; simpl in *.
    apply interpolated_interp_rows; by rewrite ?Hd.
  - apply Forall2_fmap_r, Forall_Forall2_diag, Forall_true.
    intros [nc rs]. apply same_outside_interp_rows.
Qed.
End MegMore.

(** ** The further properties on sample data *)

Module MoreRuns.
Import Samples MoreSamples.
#[local] Open Scope Z_scope.



Example raw3_single_row_broadcast :
  _do_interp_dots raw3 twice [0]%nat [1; 2]%nat
  = (inr (), set_payload raw3 (RawData (Arr2 2 [[1; 2]; [2; 4]; [2; 4]]))).
Proof. vm_compute. reflexivity. Qed.


Lemma do_interp_dots_epochs_trialwise_witness :
  ∃ e', payload epochs3_after = EpochsData e' ∧
        Forall2 (λ t t',
          _do_interp_dots
            (Inst three_channels ["EEG 003"]
                  (RawData (Arr2 (nsamp3 epochs3_data) t)))
            sum_of_goods [0; 1]%nat [2]%nat
          = (inr (), Inst three_channels ["EEG 003"]
                          (RawData (Arr2 (nsamp3 epochs3_data) t'))))
          (trials epochs3_data) (trials e').
Proof.
  apply (do_interp_dots_epochs_trialwise three_channels ["EEG 003"]
           epochs3_data epochs3_after sum_of_goods [0; 1]%nat [2]%nat).
  - repeat constructor.
  - reflexivity.
  - vm_compute. reflexivity.
Defined.

(** The contraction repeats an axis of length 1.  With a single good
    channel and a matrix of two columns the channel is counted twice, and
    the segmented container takes the call that the continuous one
    refuses; a matrix of one column multiplies the sum of the good
    channels. *)
Example epochs3_single_good_repeated :
  _do_interp_dots epochs3 sum_of_goods [0]%nat [2]%nat
  = (inr (), Inst three_channels ["EEG 003"]
                  (EpochsData (Arr3 3 2 [[[1; 2]; [3; 4]; [2; 4]];
                                         [[10; 20]; [30; 40]; [20; 40]]]))) ∧
  _do_interp_dots raw3 sum_of_goods [0]%nat [2]%nat = (inl ShapeMismatch, raw3).
Proof. vm_compute. done. Qed.

Example epochs3_single_column_repeated :
  _do_interp_dots epochs3 twice [0; 1]%nat [2]%nat
  = (inr (), Inst three_channels ["EEG 003"]
                  (EpochsData (Arr3 3 2 [[[1; 2]; [3; 4]; [8; 12]];
                                         [[10; 20]; [30; 40]; [80; 120]]]))) ∧
  _do_interp_dots raw3 twice [0; 1]%nat [2]%nat = (inl ShapeMismatch, raw3).
Proof. vm_compute. done. Qed.

(** A value of the wrong shape is refused before an index out of range. *)
Example set_rows_shape_before_index :
  set_rows [5]%nat (Arr2 2 [[7; 8]; [9; 10]]) (Arr2 2 [[1; 2]; [3; 4]])
  = inl ShapeMismatch ∧
  set_rows [5]%nat (Arr2 2 [[7; 8]]) (Arr2 2 [[1; 2]; [3; 4]])
  = inl IndexError.
Proof. vm_compute. done. Qed.

Lemma meg_select_prefix_aligned_witness :
  (∀ k, k ∈ (meg_select meg_then_eeg).2 ↔ bad_channel MEG meg_then_eeg k) ∧
  (∀ k, k ∈ (meg_select meg_then_eeg).1.2 ↔ good_channel MEG meg_then_eeg k) ∧
  (meg_select meg_then_eeg).1.2 ## (meg_select meg_then_eeg).2 ∧
  NoDup (meg_select meg_then_eeg).1.2 ∧ NoDup (meg_select meg_then_eeg).2.
Proof. apply meg_select_prefix_aligned. vm_compute. reflexivity. Defined.

(** Behind an EEG channel the MEG channels are no prefix. *)
Example eeg_then_meg_no_prefix :
  (meg_select eeg_then_meg).1.1
  ≠ seq 0 (length (meg_select eeg_then_meg).1.1).
Proof. vm_compute. discriminate. Qed.

Lemma no_meg_channel_in_raw3 p : ¬ bad_channel MEG raw3 p.
Proof.
  intros (c & Hc & Hk & _).
  destruct p as [|[|[|p]]]; simpl in Hc; simplify_eq; discriminate.
Qed.

Lemma interpolate_bads_meg_no_bad_meg_witness :
  _interpolate_bads_meg doubling raw3 "accurate" = (inr (), raw3).
Proof. apply interpolate_bads_meg_no_bad_meg. exact no_meg_channel_in_raw3. Defined.

Lemma bad_meg_channel_meg_then_eeg : bad_channel MEG meg_then_eeg 1.
Proof.
  eexists. split; [reflexivity|]. split; [reflexivity|].
  simpl. apply list_elem_of_In. simpl. by left.
Qed.

Lemma interpolate_bads_meg_prefix_interpolates_witness :
  (_interpolate_bads_meg doubling meg_then_eeg "accurate").1 = inr () ∧
  Forall2 (interpolated
             (doubling meg_then_eeg (meg_select meg_then_eeg).1.2
                       (meg_select meg_then_eeg).2 "accurate")
             (meg_select meg_then_eeg).1.2 (meg_select meg_then_eeg).2)
          (slices (payload meg_then_eeg))
          (slices (payload (_interpolate_bads_meg doubling meg_then_eeg
                              "accurate").2)) ∧
  Forall2 (same_outside (meg_select meg_then_eeg).2)
          (slices (payload meg_then_eeg))
          (slices (payload (_interpolate_bads_meg doubling meg_then_eeg
                              "accurate").2)).
Proof.
  apply (interpolate_bads_meg_prefix_interpolates doubling meg_then_eeg
           "accurate" 1%nat).
  - vm_compute. reflexivity.
  - exact I.
  - repeat constructor.
  - reflexivity.
  - exact bad_meg_channel_meg_then_eeg.
  - vm_compute. reflexivity.
  - vm_compute. reflexivity.
Defined.
End MoreRuns.

Module MoreRealRuns.
Import Reals Lra RealArith RealNotions KernelValues BuilderScale RealRuns.
#[local] Open Scope R_scope.

Lemma wf2_good_positions : wf2 good_positions.
Proof. repeat constructor. Qed.

Lemma no_zero_norm_good_positions : no_zero_norm good_positions.
Proof. repeat constructor; apply unit_norm_nonzero; cbn; ring. Qed.

Lemma no_zero_norm_bad_positions : no_zero_norm bad_positions.
Proof. repeat constructor; apply unit_norm_nonzero; cbn; ring. Qed.

Lemma pinv_stub_shape (g : ndarray2 R) :
  wf2 g → (0 < nrows g)%nat → ncols g = nrows g →
  nrows (pinv_stub g) = nrows g ∧ ncols (pinv_stub g) = nrows g.
Proof. intros _ _ Hsq. unfold pinv_stub. by split. Qed.

Lemma regularized_kernel_symmetric_witness :
  ∃ c, dot good_positions (transpose good_positions) = inr c ∧
       symmetric c ∧ symmetric (_calc_g c 4 50) ∧
       transpose (flat_stride_iadd (nrows (_calc_g c 4 50) + 1) (1 / 100000)
                                   (_calc_g c 4 50))
       = flat_stride_iadd (nrows (_calc_g c 4 50) + 1) (1 / 100000)
                          (_calc_g c 4 50).
Proof.
  apply regularized_kernel_symmetric.
  - intros x y. cbn. apply Rmult_comm.
  - exact wf2_good_positions.
Defined.

Lemma calc_g_calc_h_transpose_witness :
  _calc_g (transpose good_positions) 4 50
  = transpose (_calc_g good_positions 4 50) ∧
  _calc_h (transpose good_positions) 4 50
  = transpose (_calc_h good_positions 4 50).
Proof. apply calc_g_calc_h_transpose. exact wf2_good_positions. Defined.

Lemma g_factor_positive_and_h_factor_witness :
  0 < g_factor 4 1 ∧ g_factor (4 - 1) 1 = INR 1 * (INR 1 + 1) * g_factor 4 1.
Proof. apply g_factor_positive_and_h_factor. lia. Defined.

Lemma make_interpolation_matrix_none_is_zero_witness :
  _make_interpolation_matrix pinv_stub 0%nat 1%nat None caller_store
  = _make_interpolation_matrix pinv_stub 0%nat 1%nat (Some fzero) caller_store.
Proof.
  apply (make_interpolation_matrix_none_is_zero pinv_stub caller_store
           0%nat 1%nat good_positions bad_positions).
  - intros x. cbn. lra.
  - exact caller_store_from.
  - exact caller_store_to.
Defined.

Lemma targets_store_from : targets_store !! 0%nat = Some good_positions.
Proof. unfold targets_store. apply lookup_insert_eq. Qed.

Lemma targets_store_to : targets_store !! 1%nat = Some two_targets.
Proof.
  unfold targets_store. rewrite lookup_insert_ne by done.
  apply lookup_insert_eq.
Qed.

Lemma second_target_store_from :
  second_target_store !! 5%nat = Some good_positions.
Proof. unfold second_target_store. apply lookup_insert_eq. Qed.

Lemma second_target_store_to :
  second_target_store !! 2%nat = Some (Arr2 3 [[1; 1; 0]]).
Proof.
  unfold second_target_store. rewrite lookup_insert_ne by done.
  apply lookup_insert_eq.
Qed.

(** The builder succeeds on the two targets. *)
Lemma targets_store_result :
  ∃ M, (_make_interpolation_matrix pinv_stub 0%nat 1%nat (Some (1 / 100000))
          targets_store).1 = inr M.
Proof.
  rewrite (make_interpolation_matrix_run pinv_stub targets_store 0%nat 1%nat
             good_positions two_targets (Some (1 / 100000))
             targets_store_from targets_store_to).
  destruct (spline_matrix_shape pinv_stub good_positions two_targets
              (1 / 100000) pinv_stub_shape eq_refl)
    as (M & HM & _).
  - unfold nrows, good_positions; simpl. lia.
  - by exists M.
Qed.

(** The second of two targets, against the same target kept alone in
    another store. *)
Lemma make_interpolation_matrix_rowwise_witness :
  ∃ M r,
    (_make_interpolation_matrix pinv_stub 0%nat 1%nat (Some (1 / 100000))
       targets_store).1 = inr M ∧
    rows M !! 1%nat = Some r ∧
    (_make_interpolation_matrix pinv_stub 5%nat 2%nat (Some (1 / 100000))
       second_target_store).1 = inr (Arr2 (ncols M) [r]).
Proof.
  destruct targets_store_result as [M HM]. exists M.
  destruct (make_interpolation_matrix_rowwise pinv_stub targets_store
              second_target_store 0%nat 1%nat 5%nat 2%nat good_positions
              two_targets [1; 1; 0] 1%nat (Some (1 / 100000)) M
              targets_store_from targets_store_to second_target_store_from
              second_target_store_to eq_refl HM) as (r & Hr & Hone).
  by exists r.
Defined.

Lemma mismatched_store_from : mismatched_store !! 0%nat = Some good_positions.
Proof. unfold mismatched_store. apply lookup_insert_eq. Qed.

Lemma mismatched_store_to : mismatched_store !! 1%nat = Some planar_position.
Proof.
  unfold mismatched_store. rewrite lookup_insert_ne by done.
  apply lookup_insert_eq.
Qed.

Lemma make_interpolation_matrix_dimension_mismatch_witness :
  (_make_interpolation_matrix pinv_stub 0%nat 1%nat (Some (1 / 100000))
     mismatched_store).1 = inl ShapeMismatch ∧
  mismatched_store
    ⊆ (_make_interpolation_matrix pinv_stub 0%nat 1%nat (Some (1 / 100000))
         mismatched_store).2.
Proof.
  apply (make_interpolation_matrix_dimension_mismatch pinv_stub mismatched_store
           0%nat 1%nat good_positions planar_position).
  - exact mismatched_store_from.
  - exact mismatched_store_to.
  - simpl. lia.
Defined.

Lemma scaled_store_from : scaled_store !! 4%nat = Some (scaled 2 good_positions).
Proof. unfold scaled_store. apply lookup_insert_eq. Qed.

Lemma scaled_store_to : scaled_store !! 7%nat = Some (scaled 3 bad_positions).
Proof.
  unfold scaled_store. rewrite lookup_insert_ne by done.
  apply lookup_insert_eq.
Qed.

Lemma make_interpolation_matrix_scale_invariant_witness :
  (_make_interpolation_matrix pinv_stub 4%nat 7%nat (Some (1 / 100000))
     scaled_store).1
  = (_make_interpolation_matrix pinv_stub 0%nat 1%nat (Some (1 / 100000))
       caller_store).1.
Proof.
  apply (make_interpolation_matrix_scale_invariant pinv_stub caller_store
           scaled_store 0%nat 1%nat 4%nat 7%nat good_positions bad_positions
           2 3).
  - lra.
  - lra.
  - exact no_zero_norm_good_positions.
  - exact no_zero_norm_bad_positions.
  - exact caller_store_from.
  - exact caller_store_to.
  - exact scaled_store_from.
  - exact scaled_store_to.
Defined.

Lemma good_channel_real_raw : good_channel EEG real_raw 0.
Proof.
  eexists. split; [reflexivity|]. split; [reflexivity|].
  simpl. intros Hin%list_elem_of_In. simpl in Hin. by destruct Hin.
Qed.

Lemma interpolate_bads_eeg_interpolates_witness :
  ∃ M, spline_matrix pinv_stub (sel_pos_good (eeg_select real_raw))
                     (sel_pos_bad (eeg_select real_raw)) f1e_5 = inr M ∧
       (_interpolate_bads_eeg pinv_stub unit_sphere_fit real_raw []).1 = inr () ∧
       Forall2 (interpolated M (flatnonzero (sel_goods_idx (eeg_select real_raw)))
                               (flatnonzero (sel_bads_idx (eeg_select real_raw))))
               (slices (payload real_raw))
               (slices (payload (_interpolate_bads_eeg pinv_stub unit_sphere_fit
                                   real_raw []).2.1)) ∧
       Forall2 (same_outside (flatnonzero (sel_bads_idx (eeg_select real_raw))))
               (slices (payload real_raw))
               (slices (payload (_interpolate_bads_eeg pinv_stub unit_sphere_fit
                                   real_raw []).2.1)).
Proof.
  apply (interpolate_bads_eeg_interpolates pinv_stub unit_sphere_fit real_raw
           [] 0%nat).
  - exact pinv_stub_shape.
  - exact I.
  - repeat constructor.
  - reflexivity.
  - exact good_channel_real_raw.
Defined.

Lemma interpolate_bads_eeg_without_bads_unchanged_witness :
  (_interpolate_bads_eeg pinv_stub unit_sphere_fit real_raw_clean []).1 = inr () ∧
  (_interpolate_bads_eeg pinv_stub unit_sphere_fit real_raw_clean []).2.1
  = real_raw_clean.
Proof.
  apply (interpolate_bads_eeg_without_bads_unchanged pinv_stub unit_sphere_fit
           real_raw_clean [] 0%nat (Chan "EEG 001" EEG (V3 1 0 0))).
  - exact pinv_stub_shape.
  - exact I.
  - reflexivity.
  - reflexivity.
  - reflexivity.
  - intros j (c & _ & _ & Hin). simpl in Hin. by apply elem_of_nil in Hin.
Defined.

Lemma interpolate_bads_eeg_no_eeg_channel_witness :
  _interpolate_bads_eeg pinv_stub unit_sphere_fit real_meg_only []
  = (inr (), (real_meg_only, [])).
Proof.
  apply interpolate_bads_eeg_no_eeg_channel.
  intros k c Hc. destruct k as [|[|k]]; simpl in Hc; simplify_eq; done.
Defined.
End MoreRealRuns.

(** ** The sphere check *)

Section GoodPositions.
Context {T : Type}.
Implicit Types (i : inst T).





End GoodPositions.

Section GeometryCheckFacts.
Context {T : Type} `{FloatOps T}.

(** On a number for the radius and an array of one entry per coordinate
    for the centre, the arithmetic of the check raises nothing and decides
    as the EEG path does. *)
Lemma sphere_check_radius_first (radius : T) (center : list T)
    (pos : ndarray2 T) :
  length center = ncols pos →
  sphere_check (Number radius, Array1 center) pos
  = inr (poor_fit radius center pos).
Proof.
  intros Hl. unfold sphere_check, sub_center, div_radius.
  rewrite decide_True by done. simpl.
  unfold poor_fit, mean_ratio, distance_from.
  by rewrite <-!list_fmap_compose.
Qed.
End GeometryCheckFacts.

Module SphereFit.
Import Reals Lra RealArith RealNotions RealRuns MoreRealRuns.
#[local] Open Scope R_scope.







(** The same sphere answered in the order of the code passes the check. *)
Example sphere_check_radius_first_passes :
  ∃ b, sphere_check (Number 1, Array1 [0; 0; 0]) good_positions = inr b.
Proof. eexists. by apply sphere_check_radius_first. Qed.




End SphereFit.
